(** * Verification of the routing script [path.py]

    The script reads two GeoJSON feature collections, builds a visibility
    graph with shapely and networkx, fills a distance matrix between the
    points of interest, solves the visiting order by brute force over
    [itertools.permutations] and prints the stitched path.

    Python floats are IEEE 754 binary64 numbers; they are modelled with the
    executable specification [spec_float] of the Standard Library, so that
    sums, comparisons and the [float("inf")] test follow the rounding and
    the special values of the interpreter.  The calls into shapely
    ([intersects], [touches]), [math.hypot] and networkx
    ([shortest_path_length], [shortest_path]) are arguments of the
    definitions that use them. *)

From Stdlib Require Import ZArith List Bool Lia Permutation Sorted PeanoNat.
From Stdlib Require Import Floats.SpecFloat.
Import ListNotations.

(** ** Python floats *)

Module PyFloat.

Definition prec : Z := 53.
Definition emax : Z := 1024.

Definition float := spec_float.

(** [float("inf")] *)
Definition inf : float := S754_infinity false.

(** The integer literal [0], as it compares and adds with floats. *)
Definition zero : float := S754_zero false.

Definition add (x y : float) : float := SFadd prec emax x y.
Definition sub (x y : float) : float := SFsub prec emax x y.
Definition mul (x y : float) : float := SFmul prec emax x y.
Definition sqrt (x : float) : float := SFsqrt prec emax x.

(** [x == y], [x < y], [x <= y] *)
Definition eqb (x y : float) : bool := SFeqb x y.
Definition ltb (x y : float) : bool := SFltb x y.
Definition leb (x y : float) : bool := SFleb x y.

(** [float(z)] for an integer [z] *)
Definition of_Z (z : Z) : float := binary_normalize prec emax z 0 false.

(** [math.isfinite] *)
Definition is_finite (x : float) : bool :=
  match x with
  | S754_zero _ | S754_finite _ _ _ => true
  | _ => false
  end.

(** [math.isnan] *)
Definition is_nan (x : float) : bool :=
  match x with
  | S754_nan => true
  | _ => false
  end.

End PyFloat.


(** ** Data of the script *)

(** A coordinate tuple [(x, y)]. *)
Definition coord : Type := PyFloat.float * PyFloat.float.

(** [p == q] on coordinate tuples: numeric equality of both components. *)
Definition coord_eqb (p q : coord) : bool :=
  PyFloat.eqb (fst p) (fst q) && PyFloat.eqb (snd p) (snd q).

(** A shapely [Polygon]: [exterior.coords] and the [coords] of each of its
    [interiors].  The record holds the coordinate lists only.  Shapely
    itself builds a polygon from closed rings alone: [shape] (lines 23 and
    31) appends the first coordinate to a ring left open and raises
    [ValueError] on a ring that then holds fewer than four coordinates, so
    a polygon the script handles satisfies [shapely_polygon] below; the
    rings of an empty polygon are empty. *)
Record Polygon : Type := mkPolygon {
  exterior : list coord;
  interiors : list (list coord)
}.

(** A ring as shapely keeps it: empty, or four coordinates at least, the
    last equal to the first. *)
Definition shapely_ring (ring : list coord) : bool :=
  match ring with
  | [] => true
  | first :: _ =>
      (4 <=? length ring)%nat && coord_eqb (last ring first) first
  end.

Definition shapely_polygon (g : Polygon) : bool :=
  shapely_ring (exterior g) && forallb shapely_ring (interiors g).

(** What [shape(...)] returns: the script tells [Point] and [Polygon] from
    every other geometry with [isinstance]. *)
Inductive Geometry : Type :=
| GPoint (c : coord)
| GPolygon (g : Polygon)
| GOther.

(** A GeoJSON feature; the script reads its ["geometry"] member only. *)
Record Feature : Type := mkFeature { geometry : Geometry }.

(** Exceptions that end the script. *)
Inductive exn : Type :=
| NameError
| IndexError
| NetworkXNoPath
| NodeNotFound.

Inductive result (A : Type) : Type :=
| Ok (a : A)
| Raise (e : exn).
Arguments Ok {A} a.
Arguments Raise {A} e.

Definition bind {A B : Type} (r : result A) (k : A -> result B) : result B :=
  match r with
  | Ok a => k a
  | Raise e => Raise e
  end.

Notation "x <- r ;; k" := (bind r (fun x => k))
  (at level 61, r at next level, right associativity).

Definition raises {A : Type} (r : result A) : Prop := exists e, r = Raise e.

(** ** Parsing (lines 14-33) *)

(** [json.load(f)["features"][:8]] *)
Definition load_pois (features : list Feature) : list Feature :=
  firstn 8 features.

(** The loop [for feature in pois_data]: it fills [pois] and leaves the
    module-level name [feature] bound to the last element it visited;
    [feature] is [None] while the name is unbound. *)
Fixpoint parse_pois (pois_data : list Feature)
    (pois : list coord) (feature : option Feature)
  : list coord * option Feature :=
  match pois_data with
  | [] => (pois, feature)
  | f :: rest =>
      match geometry f with
      | GPoint c => parse_pois rest (pois ++ [c]) (Some f)
      | _ => parse_pois rest pois (Some f)
      end
  end.

(** The loop [for feaature in boundaries_data]: its body reads [feature],
    not the loop variable. *)
Fixpoint parse_boundaries (feature : option Feature)
    (boundaries_data : list Feature) (boundaries : list Polygon)
  : result (list Polygon) :=
  match boundaries_data with
  | [] => Ok boundaries
  | feaature :: rest =>
      match feature with
      | None => Raise NameError
      | Some f =>
          match geometry f with
          | GPolygon geom => parse_boundaries feature rest (boundaries ++ [geom])
          | _ => parse_boundaries feature rest boundaries
          end
      end
  end.

(** Both loops in sequence, from the two feature collections. *)
Definition parse (poi_features boundaries_data : list Feature)
  : result (list coord * list Polygon) :=
  let '(pois, feature) := parse_pois (load_pois poi_features) [] None in
  boundaries <- parse_boundaries feature boundaries_data [] ;;
  Ok (pois, boundaries).

(** ** Nodes (lines 35-47) *)

Definition ring_vertices (boundary : Polygon) : list coord :=
  exterior boundary ++ concat (interiors boundary).

Definition collect_nodes (pois : list coord) (boundaries : list Polygon)
  : list coord :=
  pois ++ flat_map ring_vertices boundaries.

(** [set.add]: the element joins the set unless an equal one is there. *)
Definition set_add (s : list coord) (p : coord) : list coord :=
  if existsb (coord_eqb p) s then s else s ++ [p].

(** [list(set(nodes))].  The elements are those of the set; the model
    lists them in order of first insertion, where CPython lists them in
    hash order. *)
Definition dedup (nodes : list coord) : list coord :=
  fold_left set_add nodes [].

(** ** The graph (lines 49-74) *)

(** An [nx.Graph]: its nodes and its undirected weighted edges. *)
Record Graph : Type := mkGraph {
  g_nodes : list coord;
  g_edges : list (coord * coord * PyFloat.float)
}.

Definition empty_graph : Graph := mkGraph [] [].

(** [v in G] *)
Definition has_node (G : Graph) (v : coord) : bool :=
  existsb (coord_eqb v) (g_nodes G).

Definition add_node (G : Graph) (v : coord) : Graph :=
  mkGraph (set_add (g_nodes G) v) (g_edges G).

Definition same_edge (u v : coord) (e : coord * coord * PyFloat.float) : bool :=
  let '(a, b, _) := e in
  (coord_eqb a u && coord_eqb b v) || (coord_eqb a v && coord_eqb b u).

(** [G.add_edge(u, v, weight=w)] between two nodes of [G], as the ends are
    in the script, where they come from [nodes]: the edge between them, in
    either direction, carries [w]. *)
Definition add_edge (G : Graph) (u v : coord) (w : PyFloat.float) : Graph :=
  mkGraph (g_nodes G)
          (filter (fun e => negb (same_edge u v e)) (g_edges G) ++ [(u, v, w)]).

(** ** [itertools.permutations] *)

Section Permutations.
Context {A : Type}.

(** Every way to take one element out of a list, in the order of the
    list: the element and what is left. *)
Fixpoint selections (l : list A) : list (A * list A) :=
  match l with
  | [] => []
  | x :: r => (x, r) :: map (fun yr => (fst yr, x :: snd yr)) (selections r)
  end.

(** [permutations(iterable, r)]: the tuples of [r] elements at distinct
    positions, ordered by the positions they take. *)
Fixpoint permutations_r (r : nat) (l : list A) : list (list A) :=
  match r with
  | 0 => [[]]
  | S r' =>
      flat_map (fun xr => map (cons (fst xr)) (permutations_r r' (snd xr)))
               (selections l)
  end.

(** [permutations(iterable)] *)
Definition permutations (l : list A) : list (list A) :=
  permutations_r (length l) l.

End Permutations.

(** [range(a, b)] *)
Definition range (a b : nat) : list nat := seq a (b - a).

(** ** The search for the visiting order (lines 96-111) *)

(** The dictionary [distance_matrix], read at its keys [(a, b)]; the script
    fills it for every pair of indices below [n] before the search reads
    it. *)
Definition DistanceMatrix : Type := nat * nat -> PyFloat.float.

(** [zip(current, current[1:])] *)
Definition legs (current : list nat) : list (nat * nat) :=
  combine current (tl current).

(** The inner loop over the legs of one order, from the running [total]:
    [valid] becomes [False] at the first leg equal to [float("inf")], where
    the loop breaks. *)
Fixpoint evaluate (distance_matrix : DistanceMatrix)
    (ls : list (nat * nat)) (total : PyFloat.float) : bool * PyFloat.float :=
  match ls with
  | [] => (true, total)
  | (a, b) :: rest =>
      if PyFloat.eqb (distance_matrix (a, b)) PyFloat.inf
      then (false, total)
      else evaluate distance_matrix rest
             (PyFloat.add total (distance_matrix (a, b)))
  end.

(** One round of the outer loop on [(best_order, min_distance)]. *)
Definition tsp_step (distance_matrix : DistanceMatrix)
    (st : option (list nat) * PyFloat.float) (perm : list nat)
  : option (list nat) * PyFloat.float :=
  let current := 0 :: perm in
  let '(valid, total) := evaluate distance_matrix (legs current) PyFloat.zero in
  if valid && PyFloat.ltb total (snd st) then (Some current, total) else st.

(** [best_order] and [min_distance] after the loop over
    [permutations(range(1, n))]. *)
Definition tsp (distance_matrix : DistanceMatrix) (n : nat)
  : option (list nat) * PyFloat.float :=
  fold_left (tsp_step distance_matrix) (permutations (range 1 n))
            (None, PyFloat.inf).

(** ** Path clean-up (lines 123-127) *)

(** The loop that drops a point equal to the last one kept. *)
Definition clean_step (cleaned_path : list coord) (p : coord) : list coord :=
  match rev cleaned_path with
  | [] => cleaned_path ++ [p]
  | last_kept :: _ =>
      if negb (coord_eqb p last_kept) then cleaned_path ++ [p]
      else cleaned_path
  end.

Definition remove_consecutive_duplicates (full_path : list coord)
  : list coord :=
  fold_left clean_step full_path [].

(** What the script prints last. *)
Inductive Outcome : Type :=
| NoValidPath
| OptimalPath (cleaned_path : list coord).

(** ** The stages that call into the libraries *)

Section Script.

(** [line.intersects(boundary)] and [line.touches(boundary)] of shapely,
    for the [LineString] through the listed coordinates. *)
Variable intersects touches : list coord -> Polygon -> bool.

(** [math.hypot] *)
Variable hypot : PyFloat.float -> PyFloat.float -> PyFloat.float.

(** [nx.shortest_path_length(G, s, t, weight="weight")] and
    [nx.shortest_path(G, s, t, weight="weight")]; [None] stands for
    [nx.NetworkXNoPath]. *)
Variable shortest_path_length : Graph -> coord -> coord -> option PyFloat.float.
Variable shortest_path : Graph -> coord -> coord -> option (list coord).

Definition LineString (coords : list coord) : list coord := coords.

(** The test of line 61 on one boundary, which the specification names
    [segmentEntersSolid]. *)
Definition segmentEntersSolid (p q : coord) (obstacle : Polygon) : bool :=
  let line := LineString [p; q] in
  intersects line obstacle && negb (touches line obstacle).

(** Lines 58-63. *)
Definition is_valid_edge (p1 p2 : coord) (boundaries : list Polygon) : bool :=
  let line := LineString [p1; p2] in
  (fix loop (bs : list Polygon) : bool :=
     match bs with
     | [] => true
     | boundary :: rest =>
         if intersects line boundary && negb (touches line boundary)
         then false
         else loop rest
     end) boundaries.

(** The inner loop of lines 68-74 for one [p1 = nodes[i]] over the
    [p2 = nodes[j]] with [j > i]. *)
Definition add_edges_from (boundaries : list Polygon) (p1 : coord)
    (later : list coord) (G : Graph) : Graph :=
  fold_left
    (fun G p2 =>
       if is_valid_edge p1 p2 boundaries then
         let distance :=
           hypot (PyFloat.sub (fst p2) (fst p1))
                 (PyFloat.sub (snd p2) (snd p1)) in
         add_edge G p1 p2 distance
       else G)
    later G.

Fixpoint add_edges (boundaries : list Polygon) (nodes : list coord)
    (G : Graph) : Graph :=
  match nodes with
  | [] => G
  | p1 :: later =>
      add_edges boundaries later (add_edges_from boundaries p1 later G)
  end.

(** Lines 35-74: the visibility graph of the points of interest and the
    boundaries. *)
Definition build (pois : list coord) (boundaries : list Polygon) : Graph :=
  let nodes := dedup (collect_nodes pois boundaries) in
  let G := fold_left add_node nodes empty_graph in
  add_edges boundaries nodes G.

(** Lines 82-94 when they run through: the entry at key [(i, j)], for [i]
    and [j] in [range(n)]; the dictionary has no other key, and the search
    reads no other. *)
Definition distance_matrix (G : Graph) (poi_coords : list coord)
  : DistanceMatrix :=
  fun '(i, j) =>
    if Nat.eqb i j then PyFloat.zero
    else
      match nth_error poi_coords i, nth_error poi_coords j with
      | Some ci, Some cj =>
          match shortest_path_length G ci cj with
          | Some dist => dist
          | None => PyFloat.inf
          end
      | _, _ => PyFloat.inf
      end.

(** Lines 88-94 for one pair: [nx.shortest_path_length] starts by raising
    [NodeNotFound] when the source is not a node of [G], which the
    [except] clause does not catch; [NetworkXNoPath] becomes the
    sentinel. *)
Definition matrix_entry (G : Graph) (ci cj : coord) : result PyFloat.float :=
  if has_node G ci then
    Ok (match shortest_path_length G ci cj with
        | Some dist => dist
        | None => PyFloat.inf
        end)
  else Raise NodeNotFound.

(** [distance_matrix[key] = value] *)
Definition dict_set (dm : DistanceMatrix) (key : nat * nat)
    (value : PyFloat.float) : DistanceMatrix :=
  fun k =>
    if Nat.eqb (fst k) (fst key) && Nat.eqb (snd k) (snd key) then value
    else dm k.

(** The loop [for j in range(n)] for one [i], over the pairs
    [(j, poi_coords[j])]. *)
Fixpoint fill_row (G : Graph) (i : nat) (ci : coord)
    (row : list (nat * coord)) (dm : DistanceMatrix)
  : result DistanceMatrix :=
  match row with
  | [] => Ok dm
  | (j, cj) :: rest =>
      if Nat.eqb i j then fill_row G i ci rest (dict_set dm (i, j) PyFloat.zero)
      else
        dist <- matrix_entry G ci cj ;;
        fill_row G i ci rest (dict_set dm (i, j) dist)
  end.

(** The loop [for i in range(n)]. *)
Fixpoint fill_rows (G : Graph) (rows all : list (nat * coord))
    (dm : DistanceMatrix) : result DistanceMatrix :=
  match rows with
  | [] => Ok dm
  | (i, ci) :: rest =>
      dm' <- fill_row G i ci all dm ;;
      fill_rows G rest all dm'
  end.

(** Lines 80-94: the dictionary once both loops are through, or the
    exception that ends them.  The keys no loop sets are never read; the
    model gives them the sentinel. *)
Definition compute_distance_matrix (G : Graph) (poi_coords : list coord)
  : result DistanceMatrix :=
  let all := combine (seq 0 (length poi_coords)) poi_coords in
  fill_rows G all all (fun _ => PyFloat.inf).

(** Lines 117-122: the leg paths of [best_order], one after the other. *)
Fixpoint reconstruct (G : Graph) (poi_coords : list coord)
    (ls : list (nat * nat)) (full_path : list coord)
  : result (list coord) :=
  match ls with
  | [] => Ok full_path
  | (a, b) :: rest =>
      match nth_error poi_coords a, nth_error poi_coords b with
      | Some ca, Some cb =>
          match shortest_path G ca cb with
          | Some path => reconstruct G poi_coords rest (full_path ++ path)
          | None => Raise NetworkXNoPath
          end
      | _, _ => Raise IndexError
      end
  end.

(** Lines 96-128 on a filled distance matrix. *)
Definition route (G : Graph) (poi_coords : list coord)
    (dm : DistanceMatrix) : result Outcome :=
  let n := length poi_coords in
  match fst (tsp dm n) with
  | None => Ok NoValidPath
  | Some best_order =>
      full_path <- reconstruct G poi_coords (legs best_order) [] ;;
      Ok (OptimalPath (remove_consecutive_duplicates full_path))
  end.

(** The whole script on the two feature collections. *)
Definition main (poi_features boundaries_data : list Feature)
  : result Outcome :=
  parsed <- parse poi_features boundaries_data ;;
  let '(pois, boundaries) := parsed in
  let G := build pois boundaries in
  let poi_coords := pois in
  dm <- compute_distance_matrix G poi_coords ;;
  route G poi_coords dm.

End Script.

(** ** Notions of the specification *)

(** The cost of a tour: the sum of its consecutive distance-matrix entries,
    added from left to right as floats. *)
Definition tour_cost (dm : DistanceMatrix) (order : list nat) : PyFloat.float :=
  fold_left (fun total ab => PyFloat.add total (dm ab)) (legs order)
            PyFloat.zero.

(** Every leg of the tour has a finite entry. *)
Definition all_legs_finite (dm : DistanceMatrix) (order : list nat) : Prop :=
  Forall (fun ab => PyFloat.is_finite (dm ab) = true) (legs order).

(** Some leg of the tour holds the unreachable sentinel [float("inf")]. *)
Definition has_unreachable_leg (dm : DistanceMatrix) (order : list nat) : Prop :=
  Exists (fun ab => PyFloat.eqb (dm ab) PyFloat.inf = true) (legs order).

(** No leg of the tour holds the sentinel: the tours the search keeps. *)
Definition no_unreachable_leg (dm : DistanceMatrix) (order : list nat) : Prop :=
  Forall (fun ab => PyFloat.eqb (dm ab) PyFloat.inf = false) (legs order).

(** No point of the list equals the point before it. *)
Fixpoint no_consecutive_duplicates (path : list coord) : Prop :=
  match path with
  | p :: (q :: _) as rest =>
      coord_eqb q p = false /\ no_consecutive_duplicates rest
  | _ => True
  end.

(** The clean-up in the words of the specification: every run of equal
    adjacent points is merged into a single occurrence, the first of the
    run.  [merge_after kept path] is the rest of the route once [kept] is
    its last point. *)
Fixpoint merge_after (kept : coord) (path : list coord) : list coord :=
  match path with
  | [] => []
  | p :: rest =>
      if coord_eqb p kept then merge_after kept rest
      else p :: merge_after p rest
  end.

Definition merge_equal_neighbours (path : list coord) : list coord :=
  match path with
  | [] => []
  | p :: rest => p :: merge_after p rest
  end.

(** [path] is what [nx.shortest_path] answers for the leg [(a, b)] of an
    order: the path between the waypoints of indices [a] and [b]. *)
Definition leg_path
    (shortest_path : Graph -> coord -> coord -> option (list coord))
    (G : Graph) (poi_coords : list coord)
    (leg : nat * nat) (path : list coord) : Prop :=
  exists ca cb,
    nth_error poi_coords (fst leg) = Some ca
    /\ nth_error poi_coords (snd leg) = Some cb
    /\ shortest_path G ca cb = Some path.

(** Lexicographic order on index tuples. *)
Fixpoint lex_lt (p q : list nat) : Prop :=
  match p, q with
  | [], [] => False
  | [], _ :: _ => True
  | _ :: _, [] => False
  | a :: p', b :: q' => a < b \/ (a = b /\ lex_lt p' q')
  end.

(** ** Inputs of the scenarios

    To run the script on the scenarios of the specification the library
    calls are given stand-ins that answer as the libraries do there: no
    shapely predicate is called when there is no boundary, [math.hypot] is
    the rounded square root of the sum of squares, and between two nodes
    joined by an edge that no detour beats networkx answers with that
    edge. *)

Definition pt (x y : Z) : coord := (PyFloat.of_Z x, PyFloat.of_Z y).

Definition no_contact (line : list coord) (boundary : Polygon) : bool := false.

(** A test that depends on the point set of the line only: some end of the
    line is a vertex of the exterior ring. *)
Definition vertex_contact (line : list coord) (boundary : Polygon) : bool :=
  existsb (fun v => existsb (coord_eqb v) (exterior boundary)) line.

Definition square : Polygon :=
  mkPolygon [pt 10 0; pt 20 0; pt 20 10; pt 10 10; pt 10 0] [].

Definition hypot_sqrt (x y : PyFloat.float) : PyFloat.float :=
  PyFloat.sqrt (PyFloat.add (PyFloat.mul x x) (PyFloat.mul y y)).

Definition edge_weight (G : Graph) (u v : coord) : option PyFloat.float :=
  match find (same_edge u v) (g_edges G) with
  | Some (_, _, w) => Some w
  | None => None
  end.

Definition direct_length (G : Graph) (u v : coord) : option PyFloat.float :=
  if coord_eqb u v then Some PyFloat.zero else edge_weight G u v.

Definition direct_path (G : Graph) (u v : coord) : option (list coord) :=
  if coord_eqb u v then Some [u]
  else match edge_weight G u v with
       | Some _ => Some [u; v]
       | None => None
       end.

Definition point_feature (x y : Z) : Feature := mkFeature (GPoint (pt x y)).

(** Scenario A: waypoints [(0,0), (10,0), (10,10)], no obstacles. *)
Definition scenario_A : list Feature :=
  [point_feature 0 0; point_feature 10 0; point_feature 10 10].

Definition scenario_A_graph : Graph :=
  build no_contact no_contact hypot_sqrt [pt 0 0; pt 10 0; pt 10 10] [].

Definition scenario_A_matrix : DistanceMatrix :=
  distance_matrix direct_length scenario_A_graph [pt 0 0; pt 10 0; pt 10 10].

(** Two waypoints with no edge between them. *)
Definition two_islands : Graph :=
  fold_left add_node [pt 0 0; pt 10 0] empty_graph.

Definition two_islands_matrix : DistanceMatrix :=
  distance_matrix direct_length two_islands [pt 0 0; pt 10 0].

(** The least positive float, [5e-324]. *)
Definition tiny : PyFloat.float := S754_finite false 1 (-1074).
(** [pois_data[-1]], when there is one: the feature the name [feature]
    is bound to after the first loop. *)
Definition last_feature (pois_data : list Feature) : option Feature :=
  last (map Some pois_data) None.

(** The geometry of one feature, [count] times when it is a polygon. *)
Definition repeated_geometry (f : Feature) (count : nat) : list Polygon :=
  match geometry f with
  | GPolygon geom => repeat geom count
  | _ => []
  end.

(** No element of the list equals an earlier one. *)
Definition pairwise_distinct (nodes : list coord) : Prop :=
  StronglySorted (fun p q => coord_eqb q p = false) nodes.

(** What holds of [(best_order, min_distance)] once the outer loop has gone
    through the permutations [seen]: the minimum is a number, no kept tour
    seen so far is below it, and [best_order], when set, is a kept tour of
    that cost which no kept tour before it equals in cost. *)
Definition tsp_invariant (dm : DistanceMatrix) (seen : list (list nat))
    (st : option (list nat) * PyFloat.float) : Prop :=
  PyFloat.is_nan (snd st) = false
  /\ (forall q, In q seen -> no_unreachable_leg dm (0 :: q) ->
        PyFloat.ltb (tour_cost dm (0 :: q)) (snd st) = false)
  /\ match fst st with
     | None => snd st = PyFloat.inf
     | Some best_order =>
         exists earlier perm later,
           seen = earlier ++ perm :: later
           /\ best_order = 0 :: perm
           /\ no_unreachable_leg dm best_order
           /\ tour_cost dm best_order = snd st
           /\ forall q, In q earlier -> no_unreachable_leg dm (0 :: q) ->
                PyFloat.eqb (tour_cost dm (0 :: q)) (snd st) = false
     end.

(** ** Further notions *)

(** The coordinates of the [Point] features of a list, in its order. *)
Definition point_coords (features : list Feature) : list coord :=
  flat_map (fun f => match geometry f with
                     | GPoint c => [c]
                     | _ => []
                     end) features.

(** The pairs [(nodes[i], nodes[j])] with [i < j], in the order in which
    the two loops of lines 68-69 meet them. *)
Fixpoint node_pairs (nodes : list coord) : list (coord * coord) :=
  match nodes with
  | [] => []
  | p1 :: later => map (pair p1) later ++ node_pairs later
  end.

(** The edge that line 73-74 adds for a pair. *)
Definition weighted_edge
    (hypot : PyFloat.float -> PyFloat.float -> PyFloat.float)
    (pq : coord * coord) : coord * coord * PyFloat.float :=
  (fst pq, snd pq,
   hypot (PyFloat.sub (fst (snd pq)) (fst (fst pq)))
         (PyFloat.sub (snd (snd pq)) (snd (fst pq)))).

(** The admissible pairs of a node list, each with its weight. *)
Definition admissible_edges
    (intersects touches : list coord -> Polygon -> bool)
    (hypot : PyFloat.float -> PyFloat.float -> PyFloat.float)
    (boundaries : list Polygon) (nodes : list coord)
  : list (coord * coord * PyFloat.float) :=
  map (weighted_edge hypot)
      (filter (fun pq => is_valid_edge intersects touches (fst pq) (snd pq)
                           boundaries)
              (node_pairs nodes)).

(** No two pairs of the list join the same two points. *)
Definition distinct_pairs (pairs : list (coord * coord)) : Prop :=
  StronglySorted
    (fun ab uv => same_edge (fst uv) (snd uv) (fst ab, snd ab, PyFloat.zero)
                  = false)
    pairs.

(** The point is in the list, or one equal to it is. *)
Definition represented (p : coord) (path : list coord) : Prop :=
  exists q, In q path /\ (q = p \/ coord_eqb p q = true).


Definition one_plus_ulp : PyFloat.float :=
  S754_finite false 4503599627370497 (-52).


(** Abscissas 0, 3*2^-55, 3*2^-54 and 1+2^-52. *)
Definition four_on_a_line : list coord :=
  [(PyFloat.zero, PyFloat.zero);
   (S754_finite false 6755399441055744 (-106), PyFloat.zero);
   (S754_finite false 6755399441055744 (-105), PyFloat.zero);
   (one_plus_ulp, PyFloat.zero)].

(** ** The geometric predicates *)

Module Planar.
Local Open Scope Z_scope.

(** Modelled from the spec: [LineString.intersects] and
    [LineString.touches] are shapely's and are not under src/.  The
    specification (4.1) describes the test they make up on exact planar
    geometry: orientation tests (the sign of a cross product) with a
    bounding-box rejection decide whether two segments cross at a point
    interior to both, collinear overlap and shared end points not
    counting; a segment enters a solid when its open part meets the solid
    area, the exterior ring minus the holes, at a point that is not a mere
    touch of the boundary; a segment that only grazes the boundary (a
    shared vertex, a tangency, a run along an edge) touches.  The model
    computes with the coordinates exactly, as integers in units of
    2^-1075, so that the middle of two of its points is a point again.  It
    is the model of the line of two points that line 59 builds, on finite
    coordinates and on polygons whose rings are closed and simple; what
    shapely answers on other input is not modelled. *)
Definition exact (x : PyFloat.float) : Z :=
  match x with
  | S754_finite s m e =>
      (if s then -1 else 1) * Z.pos m * 2 ^ (e + 1075)
  | _ => 0
  end.

Definition point : Type := Z * Z.

Definition exact_point (c : coord) : point := (exact (fst c), exact (snd c)).

(** Twice the signed area of the triangle [a b c]: positive when [c] is to
    the left of the line from [a] to [b]. *)
Definition orient (a b c : point) : Z :=
  (fst b - fst a) * (snd c - snd a) - (snd b - snd a) * (fst c - fst a).

Definition between (a b x : Z) : bool :=
  (Z.min a b <=? x) && (x <=? Z.max a b).

(** [c] is a point of the closed segment [a b]. *)
Definition on_segment (a b c : point) : bool :=
  (orient a b c =? 0)
  && between (fst a) (fst b) (fst c) && between (snd a) (snd b) (snd c).

(** The bounding boxes of the segments [a b] and [c d] meet. *)
Definition boxes_meet (a b c d : point) : bool :=
  (Z.min (fst a) (fst b) <=? Z.max (fst c) (fst d))
  && (Z.min (fst c) (fst d) <=? Z.max (fst a) (fst b))
  && (Z.min (snd a) (snd b) <=? Z.max (snd c) (snd d))
  && (Z.min (snd c) (snd d) <=? Z.max (snd a) (snd b)).

(** The segments cross at a point interior to both: each has the ends of
    the other strictly on its two sides. *)
Definition segmentsProperlyIntersect (a b c d : point) : bool :=
  boxes_meet a b c d
  && (Z.sgn (orient a b c) * Z.sgn (orient a b d) <? 0)
  && (Z.sgn (orient c d a) * Z.sgn (orient c d b) <? 0).

(** The closed segments have a point in common. *)
Definition segments_meet (a b c d : point) : bool :=
  boxes_meet a b c d
  && (Z.sgn (orient a b c) * Z.sgn (orient a b d) <=? 0)
  && (Z.sgn (orient c d a) * Z.sgn (orient c d b) <=? 0).

(** The edges of a closed ring. *)
Definition ring_edges (ring : list point) : list (point * point) :=
  combine ring (tl ring).

Definition rings (g : Polygon) : list (list point) :=
  map (map exact_point) (exterior g :: interiors g).

Definition edges (g : Polygon) : list (point * point) :=
  flat_map ring_edges (rings g).

Definition vertices (g : Polygon) : list point := concat (rings g).

Definition on_boundary (x : point) (g : Polygon) : bool :=
  existsb (fun cd => on_segment (fst cd) (snd cd) x) (edges g).

(** The half-line from [x] towards greater abscissas crosses the edge
    [c d]; an edge counts from its lower end, included, to its upper end,
    excluded. *)
Definition ray_crosses (x : point) (cd : point * point) : bool :=
  let '(c, d) := cd in
  if (snd c <=? snd x) && (snd x <? snd d) then 0 <? orient c d x
  else if (snd d <=? snd x) && (snd x <? snd c) then orient c d x <? 0
  else false.

(** [x] is in the open solid area: not on a ring, inside the exterior ring
    and outside the holes, which is to cross the rings an odd number of
    times. *)
Definition strictly_inside (x : point) (g : Polygon) : bool :=
  negb (on_boundary x g)
  && Nat.odd (length (filter (ray_crosses x) (edges g))).

Definition middle (a b : point) : point :=
  ((fst a + fst b) / 2, (snd a + snd b) / 2).

(** The points where the segment [p q] can pass from one side of the
    boundary to another without crossing an edge properly: its ends and
    the vertices on it. *)
Definition events (p q : point) (g : Polygon) : list point :=
  p :: q :: filter (on_segment p q) (vertices g).

(** The open segment [p q] meets the open solid area: it crosses an edge
    properly, or the middle of two of its events is strictly inside. *)
Definition enters (p q : point) (g : Polygon) : bool :=
  existsb (fun cd => segmentsProperlyIntersect p q (fst cd) (snd cd))
          (edges g)
  || existsb (fun a =>
                existsb (fun b => strictly_inside (middle a b) g)
                        (events p q g))
             (events p q g).

(** The segment [p q] has a point on a ring. *)
Definition meets_boundary (p q : point) (g : Polygon) : bool :=
  existsb (fun cd => segments_meet p q (fst cd) (snd cd)) (edges g).

(** [line.intersects(boundary)]: the line and the polygon have a point in
    common. *)
Definition intersects (line : list coord) (boundary : Polygon) : bool :=
  match line with
  | [p; q] =>
      enters (exact_point p) (exact_point q) boundary
      || meets_boundary (exact_point p) (exact_point q) boundary
  | _ => false
  end.

(** [line.touches(boundary)]: they have a point in common, and none of
    the open line is in the open solid area. *)
Definition touches (line : list coord) (boundary : Polygon) : bool :=
  match line with
  | [p; q] =>
      negb (enters (exact_point p) (exact_point q) boundary)
      && meets_boundary (exact_point p) (exact_point q) boundary
  | _ => false
  end.

End Planar.

(** ** The shortest-path search *)

Module Dijkstra.

(** Modelled from the spec: [nx.shortest_path_length] is networkx's and
    is not under src/.  The specification (4.3) has, for a waypoint as
    source, a single-source search of Dijkstra over the whole visibility
    graph on the weights of its edges, whose distances fill a row of the
    matrix; a waypoint without a path gets the unreachable answer, here
    [None].  The model is that search on the node list of the graph.
    Every node carries its tentative distance ([None] while it is not
    reached) and whether the distance is final.  A round makes final the
    least tentative distance that is not, the first of the list among
    equal ones, and relaxes the edges of its node; the distance through a
    node is its own distance plus the weight of the edge, a float
    addition, so that the cost of a path is the sum of its weights added
    from the source on.  There are as many rounds as nodes.  Nodes are
    identified by the value of their coordinates, as the dictionary keys
    of the graph are. *)
Definition label : Type := coord * option PyFloat.float * bool.

Definition node (l : label) : coord := fst (fst l).
Definition tentative (l : label) : option PyFloat.float := snd (fst l).
Definition final (l : label) : bool := snd l.

Definition init (G : Graph) (source : coord) : list label :=
  map (fun c =>
         (c, if coord_eqb source c then Some PyFloat.zero else None, false))
      (g_nodes G).

(** The node to make final, its distance, and the labels with that node
    marked. *)
Fixpoint extract_least (st : list label)
  : option (coord * PyFloat.float * list label) :=
  match st with
  | [] => None
  | (c, Some d, false) :: rest =>
      match extract_least rest with
      | Some (c', d', rest') =>
          if PyFloat.ltb d' d then Some (c', d', (c, Some d, false) :: rest')
          else Some (c, d, (c, Some d, true) :: rest)
      | None => Some (c, d, (c, Some d, true) :: rest)
      end
  | l :: rest =>
      match extract_least rest with
      | Some (c', d', rest') => Some (c', d', l :: rest')
      | None => None
      end
  end.

Definition relax_label (G : Graph) (u : coord) (du : PyFloat.float)
    (l : label) : label :=
  if final l then l
  else
    match edge_weight G u (node l) with
    | Some w =>
        let through_u := PyFloat.add du w in
        match tentative l with
        | Some old =>
            if PyFloat.ltb through_u old then (node l, Some through_u, false)
            else l
        | None => (node l, Some through_u, false)
        end
    | None => l
    end.

Definition relax (G : Graph) (u : coord) (du : PyFloat.float)
    (st : list label) : list label :=
  map (relax_label G u du) st.

Fixpoint search (G : Graph) (rounds : nat) (st : list label) : list label :=
  match rounds with
  | O => st
  | S rounds' =>
      match extract_least st with
      | Some (u, du, st') => search G rounds' (relax G u du st')
      | None => st
      end
  end.

(** The distances from [source] once the search is through. *)
Definition lengths (G : Graph) (source : coord) : list label :=
  search G (length (g_nodes G)) (init G source).

Definition shortest_path_length (G : Graph) (source target : coord)
  : option PyFloat.float :=
  match find (fun l => coord_eqb target (node l)) (lengths G source) with
  | Some l => tentative l
  | None => None
  end.

End Dijkstra.

(** [c] is a node of [G] that a chain of edges joins to [source]. *)
Inductive joined (G : Graph) (source : coord) : coord -> Prop :=
| joined_source (c : coord) :
    In c (g_nodes G) -> coord_eqb source c = true -> joined G source c
| joined_edge (u c : coord) :
    joined G source u -> In c (g_nodes G) -> edge_weight G u c <> None ->
    joined G source c.

(** A node equal to [target] is joined to [source]. *)
Definition connected (G : Graph) (source target : coord) : Prop :=
  exists c, coord_eqb target c = true /\ joined G source c.

(** The labels whose distance is not final. *)
Definition open_labels (st : list Dijkstra.label) : list Dijkstra.label :=
  filter (fun l => negb (Dijkstra.final l)) st.

(** What every round of the search keeps: the labels are those of the
    nodes of [G]; a final distance is a distance; a node has a distance
    only if it is joined to the source, and has one if it equals the
    source or has an edge to a node whose distance is final. *)
Definition search_invariant (G : Graph) (source : coord)
    (st : list Dijkstra.label) : Prop :=
  map Dijkstra.node st = g_nodes G
  /\ (forall l, In l st -> Dijkstra.final l = true ->
        Dijkstra.tentative l <> None)
  /\ (forall l, In l st -> Dijkstra.tentative l <> None ->
        joined G source (Dijkstra.node l))
  /\ (forall l, In l st -> coord_eqb source (Dijkstra.node l) = true ->
        Dijkstra.tentative l <> None)
  /\ (forall l l', In l st -> In l' st -> Dijkstra.final l = true ->
        edge_weight G (Dijkstra.node l) (Dijkstra.node l') <> None ->
        Dijkstra.tentative l' <> None).

(** ** Order and addition on floats

  The comparison of [spec_float] is lexicographic on sign, exponent and
  mantissa; away from NaN it is a total preorder, which is all the search
  for the minimum relies on. *)

Section PyFloatFacts.
Import PyFloat.

Lemma compare_cont_Eq_spec (m1 m2 : positive) :
  CompareSpec (m1 = m2) (m1 < m2)%positive (m2 < m1)%positive
              (Pos.compare_cont Eq m1 m2).
Proof. exact (Pos.compare_spec m1 m2). Qed.

Ltac cmp_cases :=
  repeat match goal with
    | |- context [Z.compare ?a ?b] =>
        destruct (Z.compare_spec a b); subst
    | H : context [Z.compare ?a ?b] |- _ =>
        destruct (Z.compare_spec a b); subst
    | |- context [Pos.compare_cont Eq ?a ?b] =>
        destruct (compare_cont_Eq_spec a b); subst
    | H : context [Pos.compare_cont Eq ?a ?b] |- _ =>
        destruct (compare_cont_Eq_spec a b); subst
    end;
  simpl in *; try congruence; try lia.

Lemma compare_antisym (a b : float) :
  SFcompare b a = option_map CompOpp (SFcompare a b).
Proof.
  destruct a as [[]|[]| |[] ma ea], b as [[]|[]| |[] mb eb];
    simpl; try reflexivity; cmp_cases.
Qed.

Lemma compare_lt_trans (a b c : float) :
  SFcompare a b = Some Lt -> SFcompare b c = Some Lt ->
  SFcompare a c = Some Lt.
Proof.
  destruct a as [[]|[]| |[] ma ea], b as [[]|[]| |[] mb eb],
           c as [[]|[]| |[] mc ec];
    simpl; intros H1 H2; try congruence; cmp_cases.
Qed.

Lemma compare_eq_l (a b c : float) :
  SFcompare a b = Some Eq -> SFcompare a c = SFcompare b c.
Proof.
  destruct a as [[]|[]| |[] ma ea], b as [[]|[]| |[] mb eb],
           c as [[]|[]| |[] mc ec];
    simpl; intros H1; try congruence; cmp_cases.
Qed.

Lemma compare_not_nan (a b : float) :
  is_nan a = false -> is_nan b = false -> exists r, SFcompare a b = Some r.
Proof.
  destruct a as [[]|[]| |[] ma ea], b as [[]|[]| |[] mb eb];
    simpl; intros; try discriminate; eauto.
Qed.

Lemma compare_refl (a : float) : is_nan a = false -> SFcompare a a = Some Eq.
Proof.
  destruct a as [[]|[]| |[] ma ea]; simpl; intros; try discriminate;
    try reflexivity; rewrite Z.compare_refl, Pos.compare_cont_refl;
    reflexivity.
Qed.

Lemma ltb_not_nan (a b : float) :
  ltb a b = true -> is_nan a = false /\ is_nan b = false.
Proof.
  unfold ltb, SFltb.
  destruct a as [[]|[]| |[] ma ea], b as [[]|[]| |[] mb eb];
    simpl; intros; try discriminate; auto.
Qed.

Lemma leb_refl (a : float) : is_nan a = false -> leb a a = true.
Proof.
  intros H. unfold leb, SFleb. rewrite (compare_refl a H). reflexivity.
Qed.


(** Totality away from NaN: when [a < b] fails, [b <= a] holds. *)
Lemma not_ltb_leb (a b : float) :
  is_nan a = false -> is_nan b = false -> ltb a b = false -> leb b a = true.
Proof.
  intros Ha Hb. unfold ltb, leb, SFltb, SFleb.
  rewrite (compare_antisym a b).
  destruct (compare_not_nan a b Ha Hb) as [r ->].
  destruct r; simpl; congruence.
Qed.


(** A cost that is not below the old minimum is strictly above any
    smaller new minimum. *)
Lemma not_ltb_above (c old new : float) :
  ltb c old = false -> ltb new old = true ->
  ltb c new = false /\ eqb c new = false.
Proof.
  unfold ltb, eqb, SFltb, SFeqb. intros Hc Hn.
  destruct (SFcompare new old) as [[]|] eqn:Hno; try discriminate.
  destruct (SFcompare c new) as [[]|] eqn:Hcn; auto.
  - rewrite (compare_eq_l c new old Hcn), Hno in Hc. discriminate.
  - rewrite (compare_lt_trans c new old Hcn Hno) in Hc. discriminate.
Qed.

Lemma eqb_leb (a b : float) : eqb a b = true -> leb a b = true.
Proof.
  unfold eqb, leb, SFeqb, SFleb.
  destruct (SFcompare a b) as [[]|]; congruence.
Qed.

(** *** Rounding never produces NaN *)

Lemma shr_1_nonneg (mrs : shr_record) :
  (0 <= shr_m mrs)%Z -> (0 <= shr_m (shr_1 mrs))%Z.
Proof.
  destruct mrs as [m r s]. simpl.
  destruct m as [|[p|p|]|[p|p|]]; simpl; lia.
Qed.

Lemma iter_pos_shr_1_nonneg (p : positive) (mrs : shr_record) :
  (0 <= shr_m mrs)%Z -> (0 <= shr_m (iter_pos shr_1 p mrs))%Z.
Proof.
  revert mrs.
  induction p as [p IH|p IH|]; intros mrs H; simpl.
  - apply IH, IH, shr_1_nonneg, H.
  - apply IH, IH, H.
  - apply shr_1_nonneg, H.
Qed.

Lemma shr_fexp_nonneg (m e : Z) (l : location) :
  (0 <= m)%Z -> (0 <= shr_m (fst (shr_fexp prec emax m e l)))%Z.
Proof.
  intros H. unfold shr_fexp, shr.
  assert (H0 : (0 <= shr_m (shr_record_of_loc m l))%Z)
    by (destruct l as [|[]]; exact H).
  destruct (fexp prec emax (Zdigits2 m + e) - e)%Z; simpl; auto.
  apply iter_pos_shr_1_nonneg, H0.
Qed.

Lemma round_nearest_even_nonneg (m : Z) (l : location) :
  (0 <= m)%Z -> (0 <= round_nearest_even m l)%Z.
Proof.
  intros H. destruct l as [|[]]; simpl; try lia.
  destruct (Z.even m); lia.
Qed.

Lemma binary_round_aux_not_nan (sx : bool) (mx ex : Z) (lx : location) :
  (0 <= mx)%Z -> is_nan (binary_round_aux prec emax sx mx ex lx) = false.
Proof.
  intros H. unfold binary_round_aux.
  pose proof (shr_fexp_nonneg mx ex lx H) as H1.
  destruct (shr_fexp prec emax mx ex lx) as [mrs' e']. simpl in H1.
  pose proof (shr_fexp_nonneg _ e' loc_Exact
                (round_nearest_even_nonneg _ (loc_of_shr_record mrs') H1))
    as H2.
  destruct (shr_fexp prec emax _ e' loc_Exact) as [mrs'' e'']. simpl in H2.
  destruct (shr_m mrs'') as [|m|m]; simpl; try reflexivity; try lia.
  destruct (Z.leb _ _); reflexivity.
Qed.

Lemma binary_normalize_not_nan (m e : Z) (szero : bool) :
  is_nan (binary_normalize prec emax m e szero) = false.
Proof.
  unfold binary_normalize, binary_round.
  destruct m as [|m|m]; simpl; try reflexivity;
    destruct (shl_align _ _ _) as [mz ez];
    apply binary_round_aux_not_nan; lia.
Qed.

(** Adding a finite leg to a running total that is a number keeps it a
    number (possibly an infinity, by overflow). *)
Lemma add_not_nan (x y : float) :
  is_nan x = false -> is_finite y = true -> is_nan (add x y) = false.
Proof.
  unfold add.
  destruct x as [[]|[]| |[] mx ex], y as [[]|[]| |[] my ey];
    intros Hx Hy; simpl in Hx, Hy; try discriminate; try reflexivity;
    exact (binary_normalize_not_nan _ _ _).
Qed.

(** Float addition is not associative: the same three legs summed from
    either end of a path can give two different totals. *)
Lemma add_depends_on_order :
  let one := of_Z 1 in
  let u := S754_finite false 1 (-53) in
  let x := S754_finite false 3 (-55) in
  add (add one x) x = one
  /\ add (add x x) one = add one (add u u)
  /\ eqb (add (add one x) x) (add (add x x) one) = false.
Proof. repeat split; vm_compute; reflexivity. Qed.

End PyFloatFacts.

(** ** Parsing *)

Lemma last_cons_default {A : Type} (x d : A) (l : list A) :
  last (x :: l) d = last l x.
Proof.
  revert x d. induction l as [|y l IH]; intros x d.
  - reflexivity.
  - change (last (x :: y :: l) d) with (last (y :: l) d).
    rewrite !IH. reflexivity.
Qed.

Lemma parse_pois_feature (pois_data : list Feature) (pois : list coord)
    (feature : option Feature) :
  snd (parse_pois pois_data pois feature) = last (map Some pois_data) feature.
Proof.
  revert pois feature.
  induction pois_data as [|f rest IH]; intros pois feature; simpl.
  - reflexivity.
  - assert (E : forall ps, snd (parse_pois rest ps (Some f))
                           = last (map Some rest) (Some f))
      by (intros ps; apply IH).
    change (match map Some rest with
            | [] => Some f
            | _ :: _ => last (map Some rest) feature
            end) with (last (Some f :: map Some rest) feature).
    rewrite last_cons_default. destruct (geometry f); apply E.
Qed.

Lemma repeat_snoc {A : Type} (x : A) (k : nat) :
  repeat x k ++ [x] = x :: repeat x k.
Proof.
  induction k as [|k IH]; simpl; [reflexivity | now rewrite IH].
Qed.

Lemma parse_boundaries_bound (f : Feature) (boundaries_data : list Feature)
    (boundaries : list Polygon) :
  parse_boundaries (Some f) boundaries_data boundaries
  = Ok (boundaries ++ repeated_geometry f (length boundaries_data)).
Proof.
  unfold repeated_geometry.
  revert boundaries.
  induction boundaries_data as [|feaature rest IH]; intros boundaries; simpl.
  - destruct (geometry f); now rewrite app_nil_r.
  - destruct (geometry f) as [c|geom|] eqn:E; rewrite IH; try reflexivity.
    now rewrite <- app_assoc.
Qed.

Lemma parse_boundaries_unbound (boundaries_data : list Feature)
    (boundaries : list Polygon) :
  parse_boundaries None boundaries_data boundaries
  = match boundaries_data with
    | [] => Ok boundaries
    | _ :: _ => Raise NameError
    end.
Proof. destruct boundaries_data; reflexivity. Qed.

Lemma last_feature_none (pois_data : list Feature) :
  last_feature pois_data = None -> pois_data = [].
Proof.
  unfold last_feature.
  destruct pois_data as [|f rest]; [reflexivity|].
  intros H. exfalso. revert f H.
  induction rest as [|g rest IH]; intros f H; simpl in H.
  - discriminate.
  - apply (IH g). exact H.
Qed.

(** C1. The obstacle list holds no geometry of the boundaries input: the
    second loop reads [feature], the last of the POI features, so the list
    is that feature's geometry once per boundary feature when it is a
    polygon and empty otherwise (with no POI feature at all the name is
    unbound, and a non-empty boundaries input ends the script with
    [NameError]); replacing every boundary feature by any other feature
    leaves the outcome unchanged. *)
Theorem C1_obstacles_come_from_last_poi
    (poi_features boundaries_data : list Feature) :
  parse poi_features boundaries_data
  = match last_feature (load_pois poi_features) with
    | Some f =>
        Ok (fst (parse_pois (load_pois poi_features) [] None),
            repeated_geometry f (length boundaries_data))
    | None =>
        match boundaries_data with
        | [] => Ok ([], [])
        | _ :: _ => Raise NameError
        end
    end
  /\ forall other : Feature,
       parse poi_features (map (fun _ => other) boundaries_data)
       = parse poi_features boundaries_data.
Proof.
  assert (E : forall bd,
    parse poi_features bd
    = match last_feature (load_pois poi_features) with
      | Some f =>
          Ok (fst (parse_pois (load_pois poi_features) [] None),
              repeated_geometry f (length bd))
      | None =>
          match bd with
          | [] => Ok ([], [])
          | _ :: _ => Raise NameError
          end
      end).
  { intros bd. unfold parse.
    pose proof (parse_pois_feature (load_pois poi_features) [] None) as Hf.
    fold (last_feature (load_pois poi_features)) in Hf.
    destruct (last_feature (load_pois poi_features)) as [f|] eqn:EL.
    - destruct (parse_pois (load_pois poi_features) [] None) as [pois feature].
      simpl in Hf. subst feature.
      rewrite parse_boundaries_bound. reflexivity.
    - apply last_feature_none in EL. rewrite EL. simpl.
      destruct bd; reflexivity. }
  split.
  - apply E.
  - intros other. rewrite !E, length_map.
    destruct (last_feature (load_pois poi_features)); [reflexivity|].
    destruct boundaries_data; reflexivity.
Qed.

(** When the last POI feature is a point, as POI features are, the graph is
    built with no obstacle at all. *)
Lemma point_pois_leave_no_obstacle (poi_features boundaries_data : list Feature)
    (f : Feature) (c : coord) :
  last_feature (load_pois poi_features) = Some f ->
  geometry f = GPoint c ->
  exists pois, parse poi_features boundaries_data = Ok (pois, []).
Proof.
  intros HL Hg. unfold parse.
  pose proof (parse_pois_feature (load_pois poi_features) [] None) as Hf.
  fold (last_feature (load_pois poi_features)) in Hf. rewrite HL in Hf.
  destruct (parse_pois (load_pois poi_features) [] None) as [pois feature].
  simpl in Hf. subst feature.
  rewrite parse_boundaries_bound. unfold repeated_geometry. rewrite Hg.
  exists pois. reflexivity.
Qed.

(** ** Equality of coordinate tuples *)

Lemma float_eqb_trans (a b c : PyFloat.float) :
  PyFloat.eqb a b = true -> PyFloat.eqb b c = true -> PyFloat.eqb a c = true.
Proof.
  unfold PyFloat.eqb, SFeqb. intros Hab Hbc.
  destruct (SFcompare a b) as [[]|] eqn:E; try discriminate.
  rewrite (compare_eq_l a b c E). exact Hbc.
Qed.

Lemma float_eqb_sym (a b : PyFloat.float) : PyFloat.eqb a b = PyFloat.eqb b a.
Proof.
  unfold PyFloat.eqb, SFeqb. rewrite (compare_antisym b a).
  destruct (SFcompare b a) as [[]|]; reflexivity.
Qed.

Lemma coord_eqb_trans (p q r : coord) :
  coord_eqb p q = true -> coord_eqb q r = true -> coord_eqb p r = true.
Proof.
  unfold coord_eqb. intros H1 H2.
  apply andb_true_iff in H1 as [H1x H1y].
  apply andb_true_iff in H2 as [H2x H2y].
  apply andb_true_iff. split; eapply float_eqb_trans; eassumption.
Qed.

Lemma coord_eqb_sym (p q : coord) : coord_eqb p q = coord_eqb q p.
Proof.
  unfold coord_eqb.
  now rewrite (float_eqb_sym (fst p)), (float_eqb_sym (snd p)).
Qed.

(** ** Path clean-up *)

Lemma no_consecutive_duplicates_snoc (path : list coord) (p : coord) :
  no_consecutive_duplicates path ->
  match rev path with
  | [] => True
  | last_kept :: _ => coord_eqb p last_kept = false
  end ->
  no_consecutive_duplicates (path ++ [p]).
Proof.
  induction path as [|a [|b t] IH]; intros Hn Hl.
  - exact I.
  - simpl in *. auto.
  - destruct Hn as [Hba Hn].
    change ((a :: b :: t) ++ [p]) with (a :: b :: (t ++ [p])).
    split; [exact Hba|].
    apply IH; [exact Hn|].
    change (rev (a :: b :: t)) with (rev (b :: t) ++ [a]) in Hl.
    destruct (rev (b :: t)) as [|x r] eqn:E.
    + apply (f_equal (@length coord)) in E.
      rewrite length_rev in E. discriminate.
    + exact Hl.
Qed.

Lemma clean_step_keeps (cleaned_path : list coord) (p : coord) :
  no_consecutive_duplicates cleaned_path ->
  no_consecutive_duplicates (clean_step cleaned_path p).
Proof.
  intros Hn. unfold clean_step.
  destruct (rev cleaned_path) as [|last_kept r] eqn:E.
  - apply no_consecutive_duplicates_snoc; [exact Hn | now rewrite E].
  - destruct (coord_eqb p last_kept) eqn:Ep; simpl.
    + exact Hn.
    + apply no_consecutive_duplicates_snoc; [exact Hn | now rewrite E].
Qed.

Lemma fold_clean_step_keeps (full_path cleaned_path : list coord) :
  no_consecutive_duplicates cleaned_path ->
  no_consecutive_duplicates (fold_left clean_step full_path cleaned_path).
Proof.
  revert cleaned_path.
  induction full_path as [|p rest IH]; intros cleaned_path Hn; simpl.
  - exact Hn.
  - apply IH, clean_step_keeps, Hn.
Qed.

(** A point equal to the one before it changes nothing. *)
Lemma clean_step_merges (cleaned_path : list coord) (p q : coord) :
  coord_eqb q p = true ->
  clean_step (clean_step cleaned_path p) q = clean_step cleaned_path p.
Proof.
  intros Hqp. unfold clean_step at 2 3.
  destruct (rev cleaned_path) as [|last_kept r] eqn:E.
  - unfold clean_step. rewrite rev_unit, Hqp. reflexivity.
  - destruct (coord_eqb p last_kept) eqn:Ep; simpl.
    + unfold clean_step. rewrite E.
      now rewrite (coord_eqb_trans q p last_kept Hqp Ep).
    + unfold clean_step. rewrite rev_unit, Hqp. reflexivity.
Qed.

(** The loop of lines 124-127 from a path that ends in [kept]. *)
Lemma fold_clean_step_merge (full_path cleaned_path : list coord)
    (kept : coord) :
  fold_left clean_step full_path (cleaned_path ++ [kept])
  = cleaned_path ++ kept :: merge_after kept full_path.
Proof.
  revert cleaned_path kept.
  induction full_path as [|p rest IH]; intros cleaned_path kept; simpl.
  - reflexivity.
  - unfold clean_step at 2. rewrite rev_unit.
    destruct (coord_eqb p kept); simpl.
    + apply IH.
    + rewrite IH, <- app_assoc. reflexivity.
Qed.

Lemma cleanup_merges_equal_neighbours (full_path : list coord) :
  remove_consecutive_duplicates full_path = merge_equal_neighbours full_path.
Proof.
  unfold remove_consecutive_duplicates.
  destruct full_path as [|p rest]; [reflexivity|].
  exact (fold_clean_step_merge rest [] p).
Qed.

(** Lines 119-122 append to [full_path] the shortest path of every leg, in
    the order of the legs. *)
Lemma reconstruct_concat
    (shortest_path : Graph -> coord -> coord -> option (list coord))
    (G : Graph) (poi_coords : list coord) (ls : list (nat * nat))
    (path_so_far full_path : list coord) :
  reconstruct shortest_path G poi_coords ls path_so_far = Ok full_path ->
  exists paths,
    Forall2 (leg_path shortest_path G poi_coords) ls paths
    /\ full_path = path_so_far ++ concat paths.
Proof.
  revert path_so_far.
  induction ls as [|[a b] rest IH]; intros path_so_far H; simpl in H.
  - injection H as <-. exists []. split; [constructor|].
    simpl. now rewrite app_nil_r.
  - destruct (nth_error poi_coords a) as [ca|] eqn:Ea; [|discriminate].
    destruct (nth_error poi_coords b) as [cb|] eqn:Eb; [|discriminate].
    destruct (shortest_path G ca cb) as [path|] eqn:Ep; [|discriminate].
    destruct (IH _ H) as (paths & Hpaths & ->).
    exists (path :: paths). split.
    + constructor; [|exact Hpaths]. exists ca, cb. simpl. auto.
    + simpl. now rewrite app_assoc.
Qed.

(** C7. The clean-up of lines 124-127 is the merge the specification
    describes: of every run of equal adjacent points it keeps one
    occurrence, the first.  So its result never holds two equal
    consecutive points.  The route printed for the order the search
    selects is that merge applied to the shortest paths of the legs of
    the order, one after the other; and a point equal to its predecessor,
    as the first point of a leg path is to the last of the path before,
    is merged with it. *)
Theorem C7_no_consecutive_duplicates :
  (forall full_path : list coord,
     remove_consecutive_duplicates full_path
     = merge_equal_neighbours full_path)
  /\ (forall full_path : list coord,
        no_consecutive_duplicates (remove_consecutive_duplicates full_path))
  /\ (forall shortest_path G poi_coords dm cleaned_path,
        route shortest_path G poi_coords dm = Ok (OptimalPath cleaned_path) ->
        exists best_order paths,
          fst (tsp dm (length poi_coords)) = Some best_order
          /\ Forall2 (leg_path shortest_path G poi_coords)
                     (legs best_order) paths
          /\ cleaned_path = merge_equal_neighbours (concat paths)
          /\ no_consecutive_duplicates cleaned_path)
  /\ (forall (before after : list coord) (p q : coord),
        coord_eqb q p = true ->
        remove_consecutive_duplicates (before ++ p :: q :: after)
        = remove_consecutive_duplicates (before ++ p :: after)).
Proof.
  assert (H1 : forall full_path : list coord,
             no_consecutive_duplicates
               (remove_consecutive_duplicates full_path)).
  { intros full_path. apply fold_clean_step_keeps. exact I. }
  split; [exact cleanup_merges_equal_neighbours|].
  split; [exact H1|]. split.
  - intros shortest_path G poi_coords dm cleaned_path. unfold route.
    destruct (fst (tsp dm (length poi_coords))) as [best_order|];
      [|discriminate].
    destruct (reconstruct shortest_path G poi_coords (legs best_order) [])
      as [full_path|e] eqn:Hrec; simpl; [|discriminate].
    intros H. injection H as <-.
    destruct (reconstruct_concat _ _ _ _ _ _ Hrec) as (paths & Hpaths & ->).
    exists best_order, paths. simpl.
    repeat split; [exact Hpaths | apply cleanup_merges_equal_neighbours
                  | apply H1].
  - intros before after p q Hqp. unfold remove_consecutive_duplicates.
    rewrite !fold_left_app. simpl.
    now rewrite (clean_step_merges _ p q Hqp).
Qed.

Lemma C7_witness :
  exists best_order paths,
    fst (tsp scenario_A_matrix (length [pt 0 0; pt 10 0; pt 10 10]))
    = Some best_order
    /\ Forall2 (leg_path direct_path scenario_A_graph
                         [pt 0 0; pt 10 0; pt 10 10])
               (legs best_order) paths
    /\ [pt 0 0; pt 10 0; pt 10 10] = merge_equal_neighbours (concat paths)
    /\ no_consecutive_duplicates [pt 0 0; pt 10 0; pt 10 10].
Proof.
  apply (proj1 (proj2 (proj2 C7_no_consecutive_duplicates))
           direct_path scenario_A_graph [pt 0 0; pt 10 0; pt 10 10]
           scenario_A_matrix [pt 0 0; pt 10 0; pt 10 10]).
  vm_compute. reflexivity.
Defined.

(** ** The enumeration of [itertools.permutations] *)

Section PermutationFacts.
Context {A : Type}.

Lemma selections_split (l : list A) (x : A) (r : list A) :
  In (x, r) (selections l) <->
  exists l1 l2, l = l1 ++ x :: l2 /\ r = l1 ++ l2.
Proof.
  revert x r. induction l as [|y t IH]; intros x r; simpl.
  - split; [intros [] | intros (l1 & l2 & H & _)].
    destruct l1; discriminate.
  - split.
    + intros [H | H].
      * injection H as -> ->. exists [], r. split; reflexivity.
      * apply in_map_iff in H as ([x' r'] & E & Hin). simpl in E.
        injection E as -> <-.
        apply IH in Hin as (l1 & l2 & -> & ->).
        exists (y :: l1), l2. split; reflexivity.
    + intros (l1 & l2 & H & ->).
      destruct l1 as [|z l1]; simpl in H; injection H as -> ->.
      * left. reflexivity.
      * right. apply in_map_iff. exists (x, l1 ++ l2). split; [reflexivity|].
        apply IH. exists l1, l2. split; reflexivity.
Qed.

Lemma selections_fst (l : list A) : map fst (selections l) = l.
Proof.
  induction l as [|y t IH]; simpl; [reflexivity|].
  rewrite map_map. simpl. f_equal. exact IH.
Qed.

Lemma permutations_r_sound (r : nat) (l p : list A) :
  r = length l -> In p (permutations_r r l) -> Permutation p l.
Proof.
  revert l p. induction r as [|r IH]; intros l p Hlen Hin; simpl in Hin.
  - destruct l; [|discriminate]. destruct Hin as [<- | []]. constructor.
  - apply in_flat_map in Hin as ([x rest] & Hsel & Hp). simpl in Hp.
    apply in_map_iff in Hp as (p' & <- & Hp').
    apply selections_split in Hsel as (l1 & l2 & -> & ->).
    rewrite length_app in Hlen. simpl in Hlen.
    apply Permutation_cons_app. apply IH; [|exact Hp'].
    rewrite length_app. lia.
Qed.

Lemma permutations_r_complete (r : nat) (l p : list A) :
  r = length l -> Permutation p l -> In p (permutations_r r l).
Proof.
  revert l p. induction r as [|r IH]; intros l p Hlen Hperm; simpl.
  - destruct l; [|discriminate].
    apply Permutation_sym, Permutation_nil in Hperm. now left.
  - destruct p as [|x p'].
    + apply Permutation_length in Hperm. simpl in Hperm. lia.
    + assert (Hx : In x l)
        by (apply (Permutation_in x Hperm); now left).
      apply in_split in Hx as (l1 & l2 & ->).
      apply Permutation_cons_app_inv in Hperm.
      apply in_flat_map. exists (x, l1 ++ l2). split.
      * apply selections_split. exists l1, l2. split; reflexivity.
      * simpl. apply in_map. apply IH; [|exact Hperm].
        rewrite length_app in *. simpl in Hlen. lia.
Qed.

(** The tuples [permutations] yields are the permutations of its input. *)
Lemma permutations_spec (l p : list A) :
  In p (permutations l) <-> Permutation p l.
Proof.
  split.
  - apply permutations_r_sound. reflexivity.
  - apply permutations_r_complete. reflexivity.
Qed.

End PermutationFacts.

(** *** The enumeration is lexicographic *)

Lemma StronglySorted_app {A : Type} (R : A -> A -> Prop) (l1 l2 : list A) :
  StronglySorted R l1 -> StronglySorted R l2 ->
  (forall a b, In a l1 -> In b l2 -> R a b) ->
  StronglySorted R (l1 ++ l2).
Proof.
  intros H1 H2 Hx. induction H1 as [|a l1 H1 IH Ha]; simpl.
  - exact H2.
  - constructor.
    + apply IH. intros x y Hin1 Hin2. apply Hx; [now right | exact Hin2].
    + apply Forall_app. split; [exact Ha|].
      apply Forall_forall. intros b Hb. apply Hx; [now left | exact Hb].
Qed.

Lemma StronglySorted_drop_middle {A : Type} (R : A -> A -> Prop)
    (l1 l2 : list A) (x : A) :
  StronglySorted R (l1 ++ x :: l2) -> StronglySorted R (l1 ++ l2).
Proof.
  induction l1 as [|a l1 IH]; simpl; intros H.
  - now apply StronglySorted_inv in H.
  - apply StronglySorted_inv in H as [Hs Ha]. constructor.
    + apply IH, Hs.
    + apply Forall_app in Ha as [Ha1 Ha2]. apply Forall_app. split.
      * exact Ha1.
      * now inversion Ha2.
Qed.

Lemma StronglySorted_seq (a k : nat) : StronglySorted lt (seq a k).
Proof.
  revert a. induction k as [|k IH]; intros a; simpl; constructor.
  - apply IH.
  - apply Forall_forall. intros b Hb. apply in_seq in Hb. lia.
Qed.

Lemma lex_lt_map_cons (x : nat) (ps : list (list nat)) :
  StronglySorted lex_lt ps -> StronglySorted lex_lt (map (cons x) ps).
Proof.
  induction 1 as [|p ps Hs IH Hp]; simpl; constructor.
  - exact IH.
  - apply Forall_forall. intros q Hq.
    apply in_map_iff in Hq as (q' & <- & Hq').
    simpl. right. split; [reflexivity|].
    rewrite Forall_forall in Hp. apply Hp, Hq'.
Qed.

(** The blocks of the enumeration, one per first element. *)
Lemma lex_lt_blocks (r : nat) (sel : list (nat * list nat)) :
  StronglySorted lt (map fst sel) ->
  (forall xr, In xr sel -> StronglySorted lex_lt (permutations_r r (snd xr))) ->
  StronglySorted lex_lt
    (flat_map (fun xr => map (cons (fst xr)) (permutations_r r (snd xr))) sel).
Proof.
  induction sel as [|[x rest] sel IH]; intros Hfst Hin; simpl.
  - constructor.
  - simpl in Hfst. apply StronglySorted_inv in Hfst as [Hs Hx].
    apply StronglySorted_app.
    + apply lex_lt_map_cons. apply (Hin (x, rest)). now left.
    + apply IH; [exact Hs|]. intros xr Hxr. apply Hin. now right.
    + intros p q Hp Hq.
      apply in_map_iff in Hp as (p' & <- & _).
      apply in_flat_map in Hq as ([y rest'] & Hsel & Hq). simpl in Hq.
      apply in_map_iff in Hq as (q' & <- & _).
      simpl. left.
      rewrite Forall_forall in Hx. apply Hx.
      apply in_map_iff. exists (y, rest'). split; [reflexivity | exact Hsel].
Qed.

Lemma permutations_r_lex (r : nat) (l : list nat) :
  StronglySorted lt l -> StronglySorted lex_lt (permutations_r r l).
Proof.
  revert l. induction r as [|r IH]; intros l Hl; simpl.
  - constructor; constructor.
  - apply lex_lt_blocks.
    + now rewrite selections_fst.
    + intros [x rest] Hsel. simpl. apply IH.
      apply selections_split in Hsel as (l1 & l2 & -> & ->).
      eapply StronglySorted_drop_middle, Hl.
Qed.

(** [permutations(range(1, n))] comes in increasing lexicographic order. *)
Lemma permutations_range_lex (n : nat) :
  StronglySorted lex_lt (permutations (range 1 n)).
Proof. apply permutations_r_lex, StronglySorted_seq. Qed.

(** ** The search for the visiting order *)

Lemma float_ltb_irrefl (a : PyFloat.float) : PyFloat.ltb a a = false.
Proof.
  unfold PyFloat.ltb, SFltb.
  pose proof (compare_antisym a a) as H.
  destruct (SFcompare a a) as [[]|]; simpl in *; congruence.
Qed.

Lemma finite_not_inf (x : PyFloat.float) :
  PyFloat.is_finite x = true -> PyFloat.eqb x PyFloat.inf = false.
Proof.
  destruct x as [[]|[]| |[] m e]; simpl; intros H;
    try discriminate H; reflexivity.
Qed.

Lemma finite_not_nan (x : PyFloat.float) :
  PyFloat.is_finite x = true -> PyFloat.is_nan x = false.
Proof.
  destruct x as [[]|[]| |[] m e]; simpl; intros H;
    try discriminate H; reflexivity.
Qed.

(** The inner loop either runs through all legs, none of them the
    sentinel, and returns their sum, or breaks at a sentinel. *)
Lemma evaluate_cases (dm : DistanceMatrix) (ls : list (nat * nat))
    (total : PyFloat.float) :
  (evaluate dm ls total
   = (true, fold_left (fun t ab => PyFloat.add t (dm ab)) ls total)
   /\ Forall (fun ab => PyFloat.eqb (dm ab) PyFloat.inf = false) ls)
  \/ (fst (evaluate dm ls total) = false
      /\ Exists (fun ab => PyFloat.eqb (dm ab) PyFloat.inf = true) ls).
Proof.
  revert total. induction ls as [|[a b] rest IH]; intros total; simpl.
  - left. split; [reflexivity | constructor].
  - destruct (PyFloat.eqb (dm (a, b)) PyFloat.inf) eqn:E.
    + right. split; [reflexivity|]. now constructor.
    + destruct (IH (PyFloat.add total (dm (a, b)))) as [[H1 H2] | [H1 H2]].
      * left. split; [exact H1 | now constructor].
      * right. split; [exact H1 | now apply Exists_cons_tl].
Qed.

Lemma unreachable_excludes (dm : DistanceMatrix) (order : list nat) :
  has_unreachable_leg dm order -> no_unreachable_leg dm order -> False.
Proof.
  unfold has_unreachable_leg, no_unreachable_leg. intros He Hf.
  apply Exists_exists in He as (ab & Hin & Hab).
  rewrite Forall_forall in Hf. specialize (Hf ab Hin). congruence.
Qed.

Lemma evaluate_kept (dm : DistanceMatrix) (order : list nat) :
  no_unreachable_leg dm order ->
  evaluate dm (legs order) PyFloat.zero = (true, tour_cost dm order).
Proof.
  intros Hn.
  destruct (evaluate_cases dm (legs order) PyFloat.zero) as [[H _] | [_ H]].
  - exact H.
  - exfalso. eapply unreachable_excludes; eassumption.
Qed.

Lemma evaluate_dropped (dm : DistanceMatrix) (order : list nat) :
  fst (evaluate dm (legs order) PyFloat.zero) = true ->
  no_unreachable_leg dm order.
Proof.
  intros Hv.
  destruct (evaluate_cases dm (legs order) PyFloat.zero) as [[_ H] | [H _]].
  - exact H.
  - congruence.
Qed.

Lemma tsp_step_invariant (dm : DistanceMatrix) (seen : list (list nat))
    (st : option (list nat) * PyFloat.float) (perm : list nat) :
  tsp_invariant dm seen st ->
  tsp_invariant dm (seen ++ [perm]) (tsp_step dm st perm).
Proof.
  intros (Hnan & Hlow & Hbest). unfold tsp_step.
  destruct (evaluate dm (legs (0 :: perm)) PyFloat.zero) as [valid total] eqn:E.
  destruct (valid && PyFloat.ltb total (snd st)) eqn:Hupd.
  - apply andb_true_iff in Hupd as [-> Hlt].
    assert (Hkept : no_unreachable_leg dm (0 :: perm))
      by (apply evaluate_dropped; now rewrite E).
    assert (Hcost : tour_cost dm (0 :: perm) = total).
    { pose proof (evaluate_kept dm (0 :: perm) Hkept) as E'.
      rewrite E in E'. now inversion E'. }
    repeat split; simpl.
    + apply (ltb_not_nan _ _ Hlt).
    + intros q Hq Hk. apply in_app_or in Hq as [Hq | [<- | []]].
      * apply (not_ltb_above _ (snd st) total (Hlow q Hq Hk) Hlt).
      * rewrite Hcost. apply float_ltb_irrefl.
    + exists seen, perm, []. repeat split; try assumption.
      intros q Hq Hk.
      apply (not_ltb_above _ (snd st) total (Hlow q Hq Hk) Hlt).
  - repeat split.
    + exact Hnan.
    + intros q Hq Hk. apply in_app_or in Hq as [Hq | [<- | []]].
      * apply Hlow; assumption.
      * rewrite (evaluate_kept dm (0 :: perm) Hk) in E. inversion E; subst.
        simpl in Hupd. exact Hupd.
    + destruct (fst st) as [best_order|]; [|exact Hbest].
      destruct Hbest as (earlier & p & later & -> & Hb & Hk & Hc & He).
      exists earlier, p, (later ++ [perm]). repeat split; try assumption.
      now rewrite <- app_assoc.
Qed.

Lemma tsp_fold_invariant (dm : DistanceMatrix) (todo seen : list (list nat))
    (st : option (list nat) * PyFloat.float) :
  tsp_invariant dm seen st ->
  tsp_invariant dm (seen ++ todo) (fold_left (tsp_step dm) todo st).
Proof.
  revert seen st. induction todo as [|perm todo IH]; intros seen st H; simpl.
  - now rewrite app_nil_r.
  - replace (seen ++ perm :: todo) with ((seen ++ [perm]) ++ todo)
      by now rewrite <- app_assoc.
    apply IH, tsp_step_invariant, H.
Qed.

Lemma tsp_invariant_holds (dm : DistanceMatrix) (n : nat) :
  tsp_invariant dm (permutations (range 1 n)) (tsp dm n).
Proof.
  unfold tsp.
  apply (tsp_fold_invariant dm (permutations (range 1 n)) []).
  repeat split; simpl; try reflexivity. intros q [].
Qed.

Lemma fold_add_not_nan (dm : DistanceMatrix) (ls : list (nat * nat))
    (total : PyFloat.float) :
  PyFloat.is_nan total = false ->
  Forall (fun ab => PyFloat.is_finite (dm ab) = true) ls ->
  PyFloat.is_nan (fold_left (fun t ab => PyFloat.add t (dm ab)) ls total)
  = false.
Proof.
  revert total. induction ls as [|ab rest IH]; intros total Ht Hf; simpl.
  - exact Ht.
  - inversion Hf as [|? ? Hab Hrest]; subst.
    apply IH; [|exact Hrest]. apply add_not_nan; assumption.
Qed.

Lemma tour_cost_not_nan (dm : DistanceMatrix) (order : list nat) :
  all_legs_finite dm order -> PyFloat.is_nan (tour_cost dm order) = false.
Proof. intros H. apply fold_add_not_nan; [reflexivity | exact H]. Qed.

Lemma finite_legs_kept (dm : DistanceMatrix) (order : list nat) :
  all_legs_finite dm order -> no_unreachable_leg dm order.
Proof.
  unfold all_legs_finite, no_unreachable_leg. intros H.
  eapply Forall_impl; [|exact H]. intros ab. apply finite_not_inf.
Qed.

(** The search returns an order as soon as one tour with finite legs has a
    cost below [float("inf")]. *)
Lemma tsp_finds_feasible_tour (dm : DistanceMatrix) (n : nat) (perm : list nat) :
  Permutation perm (range 1 n) ->
  all_legs_finite dm (0 :: perm) ->
  PyFloat.ltb (tour_cost dm (0 :: perm)) PyFloat.inf = true ->
  exists best_order, fst (tsp dm n) = Some best_order.
Proof.
  intros Hp Hf Hlt.
  destruct (tsp_invariant_holds dm n) as (_ & Hlow & Hbest).
  destruct (fst (tsp dm n)) as [best_order|]; [now exists best_order|].
  rewrite Hbest in Hlow.
  rewrite Hlow in Hlt; [discriminate | | now apply finite_legs_kept].
  now apply permutations_spec.
Qed.

(** C2. When the search returns an order and a cost, the order is the
    origin followed by a permutation of the other indices, none of its
    legs is the sentinel, the cost is the sum of its legs, and that cost is
    less than or equal to the cost of every permutation all of whose legs
    are finite. *)
Theorem C2_exhaustive_search_is_optimal (dm : DistanceMatrix) (n : nat)
    (best_order : list nat) (min_distance : PyFloat.float) :
  tsp dm n = (Some best_order, min_distance) ->
  (exists perm,
      best_order = 0 :: perm
      /\ Permutation perm (range 1 n)
      /\ no_unreachable_leg dm best_order
      /\ tour_cost dm best_order = min_distance)
  /\ forall perm,
       Permutation perm (range 1 n) ->
       all_legs_finite dm (0 :: perm) ->
       PyFloat.leb min_distance (tour_cost dm (0 :: perm)) = true.
Proof.
  intros Htsp.
  destruct (tsp_invariant_holds dm n) as (Hnan & Hlow & Hbest).
  rewrite Htsp in Hnan, Hlow, Hbest. simpl in Hnan, Hlow, Hbest.
  split.
  - destruct Hbest as (earlier & perm & later & Hall & Hb & Hk & Hc & _).
    exists perm. repeat split; try assumption.
    apply permutations_spec. rewrite Hall. apply in_elt.
  - intros perm Hp Hf.
    apply not_ltb_leb.
    + apply tour_cost_not_nan, Hf.
    + exact Hnan.
    + apply Hlow; [now apply permutations_spec | now apply finite_legs_kept].
Qed.

Lemma C2_witness :
  PyFloat.leb (PyFloat.of_Z 20) (tour_cost scenario_A_matrix [0; 2; 1]) = true.
Proof.
  refine (proj2 (C2_exhaustive_search_is_optimal scenario_A_matrix 3
                   [0; 1; 2] (PyFloat.of_Z 20) _) [2; 1] _ _).
  - vm_compute. reflexivity.
  - apply perm_swap.
  - repeat constructor.
Defined.

(** C6, as the script has it.  The permutations are tried in increasing
    lexicographic order; the order the search returns is the first one of
    minimum cost: no kept tour anywhere is cheaper, and no kept tour before
    it has an equal cost.  In scenario A the two orders do not tie: the
    order [0, 1, 2] costs 20 and [0, 2, 1] costs 10 more than the diagonal;
    the search returns [0, 1, 2] with cost 20, and the script prints the
    route (0,0), (10,0), (10,10). *)
Theorem C6_first_tour_of_minimum_cost :
  (forall n, StronglySorted lex_lt (permutations (range 1 n)))
  /\ (forall dm n best_order min_distance,
        tsp dm n = (Some best_order, min_distance) ->
        exists earlier perm later,
          permutations (range 1 n) = earlier ++ perm :: later
          /\ best_order = 0 :: perm
          /\ no_unreachable_leg dm best_order
          /\ tour_cost dm best_order = min_distance
          /\ (forall q, In q (permutations (range 1 n)) ->
                no_unreachable_leg dm (0 :: q) ->
                PyFloat.ltb (tour_cost dm (0 :: q)) min_distance = false)
          /\ (forall q, In q earlier ->
                no_unreachable_leg dm (0 :: q) ->
                PyFloat.eqb (tour_cost dm (0 :: q)) min_distance = false))
  /\ (tsp scenario_A_matrix 3 = (Some [0; 1; 2], PyFloat.of_Z 20)
      /\ tour_cost scenario_A_matrix [0; 2; 1]
         = PyFloat.add (hypot_sqrt (PyFloat.of_Z 10) (PyFloat.of_Z 10))
                       (PyFloat.of_Z 10)
      /\ PyFloat.ltb (tour_cost scenario_A_matrix [0; 1; 2])
                     (tour_cost scenario_A_matrix [0; 2; 1]) = true
      /\ main no_contact no_contact hypot_sqrt direct_length direct_path
              scenario_A []
         = Ok (OptimalPath [pt 0 0; pt 10 0; pt 10 10])).
Proof.
  split; [exact permutations_range_lex|]. split.
  - intros dm n best_order min_distance Htsp.
    destruct (tsp_invariant_holds dm n) as (_ & Hlow & Hbest).
    rewrite Htsp in Hlow, Hbest. simpl in Hlow, Hbest.
    destruct Hbest as (earlier & perm & later & Hall & Hb & Hk & Hc & He).
    exists earlier, perm, later. repeat split; assumption.
  - repeat split; vm_compute; reflexivity.
Qed.

Lemma C6_witness :
  exists earlier perm later,
    permutations (range 1 3) = earlier ++ perm :: later
    /\ [0; 1; 2] = 0 :: perm
    /\ no_unreachable_leg scenario_A_matrix [0; 1; 2]
    /\ tour_cost scenario_A_matrix [0; 1; 2] = PyFloat.of_Z 20
    /\ (forall q, In q (permutations (range 1 3)) ->
          no_unreachable_leg scenario_A_matrix (0 :: q) ->
          PyFloat.ltb (tour_cost scenario_A_matrix (0 :: q)) (PyFloat.of_Z 20)
          = false)
    /\ (forall q, In q earlier ->
          no_unreachable_leg scenario_A_matrix (0 :: q) ->
          PyFloat.eqb (tour_cost scenario_A_matrix (0 :: q)) (PyFloat.of_Z 20)
          = false).
Proof.
  apply (proj1 (proj2 C6_first_tour_of_minimum_cost)
           scenario_A_matrix 3 [0; 1; 2] (PyFloat.of_Z 20)).
  vm_compute. reflexivity.
Defined.

(** In scenario A the orders [0, 1, 2] and [0, 2, 1] do not have equal
    cost. *)
Lemma C6_scenario_A_orders_do_not_tie :
  PyFloat.eqb (tour_cost scenario_A_matrix [0; 1; 2])
              (tour_cost scenario_A_matrix [0; 2; 1]) = false.
Proof. vm_compute. reflexivity. Qed.

(** *** No feasible tour *)

Lemma legs_neighbour (order : list nat) (k : nat) :
  In k order -> 2 <= length order -> NoDup order ->
  exists a, a <> k /\ (In (a, k) (legs order) \/ In (k, a) (legs order)).
Proof.
  induction order as [|x [|y rest] IH]; intros Hin Hlen Hnd.
  - destruct Hin.
  - simpl in Hlen. lia.
  - change (legs (x :: y :: rest)) with ((x, y) :: legs (y :: rest)).
    inversion Hnd as [|? ? Hx Hnd']; subst.
    destruct Hin as [<- | Hin].
    + exists y. split.
      * intros ->. apply Hx. now left.
      * right. now left.
    + destruct rest as [|z rest].
      * destruct Hin as [<- | []]. exists x. split.
        -- intros ->. apply Hx. now left.
        -- left. now left.
      * destruct (IH Hin) as (a & Ha & Hl); [simpl; lia | exact Hnd' |].
        exists a. split; [exact Ha|].
        destruct Hl as [Hl | Hl]; [left | right]; now right.
Qed.

Lemma origin_then_range (n : nat) (perm : list nat) :
  1 <= n -> Permutation perm (range 1 n) -> Permutation (0 :: perm) (seq 0 n).
Proof.
  intros Hn Hp. destruct n as [|n]; [lia|].
  unfold range in Hp. simpl in *. rewrite Nat.sub_0_r in Hp.
  now constructor.
Qed.

(** A waypoint cut off from all the others leaves every tour with a
    sentinel leg. *)
Lemma isolated_waypoint_blocks (dm : DistanceMatrix) (n k : nat)
    (perm : list nat) :
  k < n -> 2 <= n ->
  (forall a, a <> k ->
     PyFloat.eqb (dm (a, k)) PyFloat.inf = true
     /\ PyFloat.eqb (dm (k, a)) PyFloat.inf = true) ->
  Permutation perm (range 1 n) ->
  has_unreachable_leg dm (0 :: perm).
Proof.
  intros Hk Hn Hiso Hp.
  assert (Hall : Permutation (0 :: perm) (seq 0 n))
    by (apply origin_then_range; [lia | exact Hp]).
  destruct (legs_neighbour (0 :: perm) k) as (a & Ha & Hl).
  - apply (Permutation_in k (Permutation_sym Hall)). apply in_seq. lia.
  - rewrite (Permutation_length Hall), length_seq. exact Hn.
  - apply (Permutation_NoDup (Permutation_sym Hall)), seq_NoDup.
  - apply Exists_exists. destruct Hl as [Hl | Hl].
    + exists (a, k). split; [exact Hl | apply Hiso, Ha].
    + exists (k, a). split; [exact Hl | apply Hiso, Ha].
Qed.

Lemma no_kept_tour_no_order (dm : DistanceMatrix) (n : nat) :
  (forall perm, Permutation perm (range 1 n) ->
     has_unreachable_leg dm (0 :: perm)) ->
  tsp dm n = (None, PyFloat.inf).
Proof.
  intros Hall.
  destruct (tsp_invariant_holds dm n) as (_ & _ & Hbest).
  destruct (tsp dm n) as [[best_order|] min_distance]; simpl in Hbest.
  - exfalso.
    destruct Hbest as (earlier & perm & later & Hseen & -> & Hk & _).
    apply (unreachable_excludes dm (0 :: perm)); [|exact Hk].
    apply Hall, permutations_spec. rewrite Hseen. apply in_elt.
  - now rewrite Hbest.
Qed.

(** C3, as the script has it.  When every permutation has a leg equal to
    the sentinel, the search selects no order and the script ends normally
    on the message that no valid path exists: no error is raised and no
    route is assembled.  This is so in particular when one waypoint has
    the sentinel towards and from every other waypoint. *)
Theorem C3_no_feasible_tour_is_reported
    (shortest_path : Graph -> coord -> coord -> option (list coord))
    (G : Graph) (poi_coords : list coord) (dm : DistanceMatrix) :
  ((forall perm, Permutation perm (range 1 (length poi_coords)) ->
      has_unreachable_leg dm (0 :: perm)) ->
   route shortest_path G poi_coords dm = Ok NoValidPath)
  /\ (forall k,
        k < length poi_coords -> 2 <= length poi_coords ->
        (forall a, a <> k ->
           PyFloat.eqb (dm (a, k)) PyFloat.inf = true
           /\ PyFloat.eqb (dm (k, a)) PyFloat.inf = true) ->
        route shortest_path G poi_coords dm = Ok NoValidPath).
Proof.
  assert (H : (forall perm, Permutation perm (range 1 (length poi_coords)) ->
                 has_unreachable_leg dm (0 :: perm)) ->
              route shortest_path G poi_coords dm = Ok NoValidPath).
  { intros Hall. unfold route.
    now rewrite (no_kept_tour_no_order dm (length poi_coords) Hall). }
  split; [exact H|].
  intros k Hk Hn Hiso. apply H. intros perm Hp.
  now apply (isolated_waypoint_blocks dm (length poi_coords) k).
Qed.

Lemma two_islands_unreachable (perm : list nat) :
  Permutation perm (range 1 2) ->
  has_unreachable_leg two_islands_matrix (0 :: perm).
Proof.
  intros Hp. apply permutations_spec in Hp.
  destruct Hp as [<- | []]. apply Exists_cons_hd. vm_compute. reflexivity.
Qed.

Lemma C3_witness :
  route direct_path two_islands [pt 0 0; pt 10 0] two_islands_matrix
  = Ok NoValidPath.
Proof.
  apply (proj1 (C3_no_feasible_tour_is_reported direct_path two_islands
                  [pt 0 0; pt 10 0] two_islands_matrix)).
  exact two_islands_unreachable.
Defined.

(** Two waypoints with no path between them: every permutation has a
    sentinel leg, and the script raises nothing. *)
Lemma C3_no_error_is_raised :
  (forall perm, Permutation perm (range 1 2) ->
     has_unreachable_leg two_islands_matrix (0 :: perm))
  /\ ~ raises (route direct_path two_islands [pt 0 0; pt 10 0]
                     two_islands_matrix).
Proof.
  split; [exact two_islands_unreachable|].
  intros [e He]. vm_compute in He. discriminate He.
Qed.

(** ** Node deduplication *)

Lemma existsb_false_all (f : coord -> bool) (s : list coord) :
  existsb f s = false -> Forall (fun x => f x = false) s.
Proof.
  induction s as [|x s IH]; simpl; intros H; constructor.
  - now apply orb_false_iff in H.
  - apply IH. now apply orb_false_iff in H.
Qed.

Lemma set_add_distinct (s : list coord) (p : coord) :
  pairwise_distinct s -> pairwise_distinct (set_add s p).
Proof.
  intros Hs. unfold set_add.
  destruct (existsb (coord_eqb p) s) eqn:E; [exact Hs|].
  apply StronglySorted_app.
  - exact Hs.
  - repeat constructor.
  - intros a b Ha [<- | []].
    apply existsb_false_all in E. rewrite Forall_forall in E. now apply E.
Qed.

Lemma set_add_incl (s : list coord) (p x : coord) :
  In x s -> In x (set_add s p).
Proof.
  intros H. unfold set_add.
  destruct (existsb (coord_eqb p) s); [exact H|].
  apply in_or_app. now left.
Qed.

Lemma set_add_represents (s : list coord) (p : coord) :
  exists q, In q (set_add s p) /\ (q = p \/ coord_eqb p q = true).
Proof.
  unfold set_add. destruct (existsb (coord_eqb p) s) eqn:E.
  - apply existsb_exists in E as (q & Hq & Hpq). exists q. auto.
  - exists p. split; [|now left]. apply in_or_app. right. now left.
Qed.

Lemma set_add_origin (s : list coord) (p x : coord) :
  In x (set_add s p) -> In x s \/ x = p.
Proof.
  unfold set_add. destruct (existsb (coord_eqb p) s); [now left|].
  intros H. apply in_app_or in H as [H | [<- | []]]; auto.
Qed.

Lemma fold_set_add_distinct (l s : list coord) :
  pairwise_distinct s -> pairwise_distinct (fold_left set_add l s).
Proof.
  revert s. induction l as [|p l IH]; intros s Hs; simpl.
  - exact Hs.
  - apply IH, set_add_distinct, Hs.
Qed.

Lemma fold_set_add_incl (l s : list coord) (x : coord) :
  In x s -> In x (fold_left set_add l s).
Proof.
  revert s. induction l as [|p l IH]; intros s Hs; simpl.
  - exact Hs.
  - apply IH, set_add_incl, Hs.
Qed.

Lemma fold_set_add_represents (l s : list coord) (p : coord) :
  In p l ->
  exists q, In q (fold_left set_add l s) /\ (q = p \/ coord_eqb p q = true).
Proof.
  revert s. induction l as [|a l IH]; intros s Hin; simpl.
  - destruct Hin.
  - destruct Hin as [-> | Hin].
    + destruct (set_add_represents s p) as (q & Hq & Hpq).
      exists q. split; [now apply fold_set_add_incl | exact Hpq].
    + now apply IH.
Qed.

Lemma fold_set_add_origin (l s : list coord) (x : coord) :
  In x (fold_left set_add l s) -> In x s \/ In x l.
Proof.
  revert s. induction l as [|a l IH]; intros s H; simpl in *.
  - now left.
  - apply IH in H as [H | H]; [|now right; right].
    apply set_add_origin in H as [H | ->]; [now left | right; now left].
Qed.

(** Inserting again the elements of a duplicate-free list changes
    nothing. *)
Lemma fold_set_add_fresh (l s : list coord) :
  pairwise_distinct (s ++ l) -> fold_left set_add l s = s ++ l.
Proof.
  revert s. induction l as [|p l IH]; intros s Hd; simpl.
  - now rewrite app_nil_r.
  - assert (E : set_add s p = s ++ [p]).
    { unfold set_add.
      destruct (existsb (coord_eqb p) s) eqn:Ex; [|reflexivity].
      exfalso. apply existsb_exists in Ex as (q & Hq & Hpq).
      apply in_split in Hq as (s1 & s2 & ->).
      rewrite <- app_assoc in Hd. simpl in Hd.
      assert (Hd' : pairwise_distinct (q :: s2 ++ p :: l)).
      { clear -Hd. induction s1 as [|a s1 IH]; simpl in Hd.
        - exact Hd.
        - apply IH. now apply StronglySorted_inv in Hd. }
      apply StronglySorted_inv in Hd' as [_ Hall].
      rewrite Forall_forall in Hall.
      specialize (Hall p (in_elt p s2 l)). simpl in Hall. congruence. }
    rewrite E, IH; rewrite <- app_assoc; [reflexivity | exact Hd].
Qed.

Lemma fold_set_add_known (l s : list coord) :
  (forall p, In p l -> existsb (coord_eqb p) s = true) ->
  fold_left set_add l s = s.
Proof.
  induction l as [|p l IH]; intros H; simpl; [reflexivity|].
  unfold set_add at 2. rewrite (H p (or_introl eq_refl)).
  apply IH. intros q Hq. apply H. now right.
Qed.

Lemma fold_set_add_knows (l s : list coord) (p : coord) :
  coord_eqb p p = true -> In p l ->
  existsb (coord_eqb p) (fold_left set_add l s) = true.
Proof.
  intros Hrefl Hin.
  destruct (fold_set_add_represents l s p Hin) as (q & Hq & Hpq).
  apply existsb_exists. exists q. split; [exact Hq|].
  destruct Hpq as [-> | Hpq]; assumption.
Qed.

Lemma dedup_distinct (nodes : list coord) : pairwise_distinct (dedup nodes).
Proof. apply fold_set_add_distinct. constructor. Qed.

Lemma dedup_idempotent (nodes : list coord) :
  dedup (dedup nodes) = dedup nodes.
Proof.
  unfold dedup at 1. apply (fold_set_add_fresh (dedup nodes) []).
  apply dedup_distinct.
Qed.

(** The least positive float lies below every other positive float, so two
    coordinates that differ by it differ by less than any tolerance that
    is not raw comparison itself. *)
Lemma tiny_is_least (x : PyFloat.float) :
  valid_binary PyFloat.prec PyFloat.emax x = true ->
  PyFloat.ltb PyFloat.zero x = true -> PyFloat.leb tiny x = true.
Proof.
  destruct x as [[]|[]| |[] m e]; intros Hv Hp;
    try discriminate Hp; try reflexivity.
  cbv [valid_binary bounded canonical_mantissa fexp emin
       PyFloat.prec PyFloat.emax] in Hv.
  apply andb_true_iff in Hv as [Hc _]. apply Z.eqb_eq in Hc.
  cbv [PyFloat.leb SFleb SFcompare tiny].
  destruct (Z.compare_spec (-1074) e) as [<- | Hlt | Hgt].
  - destruct (compare_cont_Eq_spec 1 m) as [H | H | H]; try reflexivity. lia.
  - reflexivity.
  - lia.
Qed.

(** C9, as the script has it.  Nodes are deduplicated by [set], which
    compares coordinate tuples with raw float equality: two points become
    one node exactly when their coordinates are equal; the node list has
    no two equal entries, holds for every input point that point or one
    equal to it, and holds nothing else. *)
Theorem C9_nodes_are_equal_by_raw_comparison :
  (forall p q : coord,
     length (dedup [p; q]) = if coord_eqb q p then 1 else 2)
  /\ (forall nodes, pairwise_distinct (dedup nodes))
  /\ (forall nodes p, In p nodes ->
        exists q, In q (dedup nodes) /\ (q = p \/ coord_eqb p q = true))
  /\ (forall nodes q, In q (dedup nodes) -> In q nodes).
Proof.
  repeat split.
  - intros p q. unfold dedup, set_add. simpl.
    rewrite orb_false_r. destruct (coord_eqb q p); reflexivity.
  - exact dedup_distinct.
  - intros nodes p Hp. now apply fold_set_add_represents.
  - intros nodes q Hq. apply fold_set_add_origin in Hq as [[] | Hq]. exact Hq.
Qed.

Lemma C9_witness :
  exists q, In q (dedup [pt 0 0; (tiny, PyFloat.zero)])
            /\ (q = (tiny, PyFloat.zero)
                \/ coord_eqb (tiny, PyFloat.zero) q = true).
Proof.
  apply (proj1 (proj2 (proj2 C9_nodes_are_equal_by_raw_comparison))).
  simpl. right. left. reflexivity.
Defined.

(** Two points whose coordinates differ by the least positive float, hence
    by less than any tolerance, remain two nodes. *)
Lemma C9_nearby_points_stay_distinct :
  PyFloat.sub tiny PyFloat.zero = tiny
  /\ length (dedup [pt 0 0; (tiny, PyFloat.zero)]) = 2
  /\ length (g_nodes (build no_contact no_contact hypot_sqrt
                        [pt 0 0; (tiny, PyFloat.zero)] [])) = 2.
Proof. repeat split; vm_compute; reflexivity. Qed.

(** ** The graph build *)

Section Build.
Variable intersects touches : list coord -> Polygon -> bool.
Variable hypot : PyFloat.float -> PyFloat.float -> PyFloat.float.

Lemma add_nodes_nodes (nodes : list coord) (G : Graph) :
  g_nodes (fold_left add_node nodes G) = fold_left set_add nodes (g_nodes G).
Proof.
  revert G. induction nodes as [|v nodes IH]; intros G; simpl.
  - reflexivity.
  - now rewrite IH.
Qed.

Lemma add_edges_from_nodes (boundaries : list Polygon) (p1 : coord)
    (later : list coord) (G : Graph) :
  g_nodes (add_edges_from intersects touches hypot boundaries p1 later G)
  = g_nodes G.
Proof.
  unfold add_edges_from. revert G.
  induction later as [|p2 later IH]; intros G; simpl.
  - reflexivity.
  - rewrite IH.
    destruct (is_valid_edge intersects touches p1 p2 boundaries); reflexivity.
Qed.

Lemma add_edges_nodes (boundaries : list Polygon) (nodes : list coord)
    (G : Graph) :
  g_nodes (add_edges intersects touches hypot boundaries nodes G) = g_nodes G.
Proof.
  revert G. induction nodes as [|p1 later IH]; intros G; simpl.
  - reflexivity.
  - now rewrite IH, add_edges_from_nodes.
Qed.

Lemma build_nodes (pois : list coord) (boundaries : list Polygon) :
  g_nodes (build intersects touches hypot pois boundaries)
  = dedup (collect_nodes pois boundaries).
Proof.
  unfold build. rewrite add_edges_nodes, add_nodes_nodes. simpl.
  apply dedup_idempotent.
Qed.

(** With no boundary every pair of nodes is admissible. *)
Lemma is_valid_edge_no_boundary (p1 p2 : coord) :
  is_valid_edge intersects touches p1 p2 [] = true.
Proof. reflexivity. Qed.

(** [is_valid_edge] holds when no boundary passes the test of line 61. *)
Lemma is_valid_edge_forallb (p1 p2 : coord) (boundaries : list Polygon) :
  is_valid_edge intersects touches p1 p2 boundaries
  = forallb (fun b => negb (segmentEntersSolid intersects touches p1 p2 b))
            boundaries.
Proof.
  unfold is_valid_edge, segmentEntersSolid.
  induction boundaries as [|boundary rest IH]; simpl.
  - reflexivity.
  - rewrite IH.
    destruct (intersects (LineString [p1; p2]) boundary
              && negb (touches (LineString [p1; p2]) boundary));
      reflexivity.
Qed.

End Build.

(** C4, as the script has it.  Nothing in the build checks how many
    waypoints it is given.  With fewer than two waypoints, and obstacles
    as shapely builds them, it returns the graph of the deduplicated
    waypoint and ring-vertex coordinates; with no obstacle that graph is
    the waypoints themselves (none, or one) and no edge.  The stages after
    it then end normally: the distance matrix is filled without a call to
    networkx, the search selects the order [0], and the route printed is
    empty. *)
Theorem C4_fewer_than_two_waypoints_are_accepted
    (intersects touches : list coord -> Polygon -> bool)
    (hypot : PyFloat.float -> PyFloat.float -> PyFloat.float)
    (shortest_path_length : Graph -> coord -> coord -> option PyFloat.float)
    (shortest_path : Graph -> coord -> coord -> option (list coord))
    (pois : list coord) (boundaries : list Polygon) :
  forallb shapely_polygon boundaries = true ->
  length pois < 2 ->
  g_nodes (build intersects touches hypot pois boundaries)
  = dedup (collect_nodes pois boundaries)
  /\ (boundaries = [] ->
      build intersects touches hypot pois boundaries = mkGraph pois [])
  /\ (dm <- compute_distance_matrix shortest_path_length
              (build intersects touches hypot pois boundaries) pois ;;
      route shortest_path
            (build intersects touches hypot pois boundaries) pois dm)
     = Ok (OptimalPath []).
Proof.
  intros _ Hlen. split; [apply build_nodes|].
  destruct pois as [|p [|q rest]]; [| |simpl in Hlen; lia].
  - split; [intros ->|]; reflexivity.
  - split; [intros ->|]; reflexivity.
Qed.

Lemma C4_witness :
  g_nodes (build no_contact no_contact hypot_sqrt [pt 0 0] [square])
  = dedup (collect_nodes [pt 0 0] [square])
  /\ ([square] = [] ->
      build no_contact no_contact hypot_sqrt [pt 0 0] [square]
      = mkGraph [pt 0 0] [])
  /\ (dm <- compute_distance_matrix direct_length
              (build no_contact no_contact hypot_sqrt [pt 0 0] [square])
              [pt 0 0] ;;
      route direct_path
            (build no_contact no_contact hypot_sqrt [pt 0 0] [square])
            [pt 0 0] dm)
     = Ok (OptimalPath []).
Proof.
  apply (C4_fewer_than_two_waypoints_are_accepted
           no_contact no_contact hypot_sqrt direct_length direct_path
           [pt 0 0] [square]).
  - reflexivity.
  - simpl. lia.
Defined.

(** One waypoint and no obstacle: the script raises nothing. *)
Lemma C4_single_waypoint_is_accepted :
  length (fst (parse_pois (load_pois [point_feature 0 0]) [] None)) = 1
  /\ ~ raises (main no_contact no_contact hypot_sqrt direct_length direct_path
                    [point_feature 0 0] []).
Proof.
  split; [reflexivity|].
  intros [e He]. vm_compute in He. discriminate He.
Qed.

(** ** Symmetry of the visibility test *)

Section Symmetry.
Variable intersects touches : list coord -> Polygon -> bool.

(** The code adds no asymmetry of its own: when the two predicates do not
    depend on the order of the two ends of the line, neither do the test
    of line 61 and [is_valid_edge]. *)
Lemma line_order_is_immaterial :
  (forall p q boundary,
     intersects (LineString [p; q]) boundary
     = intersects (LineString [q; p]) boundary) ->
  (forall p q boundary,
     touches (LineString [p; q]) boundary
     = touches (LineString [q; p]) boundary) ->
  (forall p q obstacle,
     segmentEntersSolid intersects touches p q obstacle
     = segmentEntersSolid intersects touches q p obstacle)
  /\ (forall p1 p2 boundaries,
        is_valid_edge intersects touches p1 p2 boundaries
        = is_valid_edge intersects touches p2 p1 boundaries).
Proof.
  intros intersects_reversed touches_reversed.
  assert (H : forall p q obstacle,
             segmentEntersSolid intersects touches p q obstacle
             = segmentEntersSolid intersects touches q p obstacle).
  { intros p q obstacle. unfold segmentEntersSolid.
    now rewrite intersects_reversed, touches_reversed. }
  split; [exact H|].
  intros p1 p2 boundaries. rewrite !is_valid_edge_forallb.
  induction boundaries as [|b rest IH]; simpl.
  - reflexivity.
  - now rewrite IH, H.
Qed.

End Symmetry.

Section PlanarFacts.
Import Planar.
Local Open Scope Z_scope.

Lemma orient_reversed (a b c : point) : orient b a c = - orient a b c.
Proof. unfold orient. ring. Qed.

Lemma between_reversed (a b x : Z) : between b a x = between a b x.
Proof. unfold between. now rewrite Z.min_comm, Z.max_comm. Qed.

Lemma on_segment_reversed (a b c : point) :
  on_segment b a c = on_segment a b c.
Proof.
  unfold on_segment.
  rewrite (orient_reversed a b c).
  rewrite (between_reversed (fst a) (fst b)), (between_reversed (snd a) (snd b)).
  replace (- orient a b c =? 0) with (orient a b c =? 0); [reflexivity|].
  destruct (Z.eqb_spec (orient a b c) 0) as [E|E];
    destruct (Z.eqb_spec (- orient a b c) 0); try reflexivity; lia.
Qed.

Lemma boxes_meet_reversed (a b c d : point) :
  boxes_meet b a c d = boxes_meet a b c d.
Proof.
  unfold boxes_meet.
  now rewrite (Z.min_comm (fst b) (fst a)), (Z.max_comm (fst b) (fst a)),
    (Z.min_comm (snd b) (snd a)), (Z.max_comm (snd b) (snd a)).
Qed.

Lemma sides_reversed (a b c d : point) :
  Z.sgn (orient b a c) * Z.sgn (orient b a d)
  = Z.sgn (orient a b c) * Z.sgn (orient a b d).
Proof.
  rewrite (orient_reversed a b c), (orient_reversed a b d), !Z.sgn_opp. ring.
Qed.

Lemma segmentsProperlyIntersect_reversed (a b c d : point) :
  segmentsProperlyIntersect b a c d = segmentsProperlyIntersect a b c d.
Proof.
  unfold segmentsProperlyIntersect.
  rewrite boxes_meet_reversed, sides_reversed.
  now rewrite (Z.mul_comm (Z.sgn (orient c d b))).
Qed.

Lemma segments_meet_reversed (a b c d : point) :
  segments_meet b a c d = segments_meet a b c d.
Proof.
  unfold segments_meet.
  rewrite boxes_meet_reversed, sides_reversed.
  now rewrite (Z.mul_comm (Z.sgn (orient c d b))).
Qed.

Lemma existsb_pointwise {A : Type} (f g : A -> bool) (l : list A) :
  (forall x, f x = g x) -> existsb f l = existsb g l.
Proof.
  intros H. induction l as [|x l IH]; simpl; [reflexivity|].
  now rewrite H, IH.
Qed.

Lemma filter_pointwise {A : Type} (f g : A -> bool) (l : list A) :
  (forall x, f x = g x) -> filter f l = filter g l.
Proof.
  intros H. induction l as [|x l IH]; simpl; [reflexivity|].
  now rewrite H, IH.
Qed.

(** The middles of the events do not depend on which end comes first. *)
Lemma events_reversed (p q : point) (g : Polygon) (f : point -> point -> bool) :
  existsb (fun a => existsb (f a) (events q p g)) (events q p g)
  = existsb (fun a => existsb (f a) (events p q g)) (events p q g).
Proof.
  unfold events.
  rewrite (filter_pointwise (on_segment q p) (on_segment p q))
    by (intros x; apply on_segment_reversed).
  set (on := filter (on_segment p q) (vertices g)).
  assert (Hin : forall a,
             existsb (f a) (q :: p :: on) = existsb (f a) (p :: q :: on)).
  { intros a. simpl. destruct (f a p), (f a q); reflexivity. }
  rewrite (existsb_pointwise _ _ _ Hin). simpl.
  destruct (f p p || (f p q || existsb (f p) on)),
           (f q p || (f q q || existsb (f q) on)); reflexivity.
Qed.

Lemma enters_reversed (p q : point) (g : Polygon) :
  enters q p g = enters p q g.
Proof.
  unfold enters. f_equal.
  - apply existsb_pointwise. intros cd.
    apply segmentsProperlyIntersect_reversed.
  - apply (events_reversed p q g
             (fun a b => strictly_inside (middle a b) g)).
Qed.

Lemma meets_boundary_reversed (p q : point) (g : Polygon) :
  meets_boundary q p g = meets_boundary p q g.
Proof.
  unfold meets_boundary. apply existsb_pointwise. intros cd.
  apply segments_meet_reversed.
Qed.

(** The test of line 61 on the two predicates is the test whether the
    segment enters the solid. *)
Lemma line_61_is_enters (p q : coord) (obstacle : Polygon) :
  segmentEntersSolid intersects touches p q obstacle
  = enters (exact_point p) (exact_point q) obstacle.
Proof.
  unfold segmentEntersSolid, LineString, intersects, touches.
  destruct (enters _ _ _), (meets_boundary _ _ _); reflexivity.
Qed.

(** The model on the square of corners (10,0) and (20,10): a segment
    through it is obstructed, as is one inside it, one along a diagonal
    and one that leaves an edge inwards; a segment that ends at a corner,
    runs along an edge, passes a corner from outside or stays away is
    not. *)
Lemma planar_model_on_the_square :
  map (fun pq => is_valid_edge intersects touches (fst pq) (snd pq) [square])
      [(pt 0 5, pt 30 5); (pt 12 2, pt 18 8); (pt 10 0, pt 20 10);
       (pt 15 0, pt 15 5); (pt 0 0, pt 10 0); (pt 0 0, pt 30 0);
       (pt 0 10, pt 30 (-20)); (pt 0 0, pt 5 5)]
  = [false; false; false; false; true; true; true; true].
Proof. vm_compute. reflexivity. Qed.

End PlanarFacts.

(** C8. With the predicates of the specification, the test of line 61 is
    whether the segment enters the solid, and it gives the same answer
    for a segment and for the reversed segment on every obstacle; so does
    [is_valid_edge] on every list of boundaries. *)
Theorem C8_visibility_is_symmetric :
  (forall p q obstacle,
     segmentEntersSolid Planar.intersects Planar.touches p q obstacle
     = Planar.enters (Planar.exact_point p) (Planar.exact_point q) obstacle)
  /\ (forall p q obstacle,
        segmentEntersSolid Planar.intersects Planar.touches p q obstacle
        = segmentEntersSolid Planar.intersects Planar.touches q p obstacle)
  /\ (forall p1 p2 boundaries,
        is_valid_edge Planar.intersects Planar.touches p1 p2 boundaries
        = is_valid_edge Planar.intersects Planar.touches p2 p1 boundaries).
Proof.
  split; [exact line_61_is_enters|].
  apply line_order_is_immaterial;
    intros p q boundary; unfold LineString, Planar.intersects, Planar.touches;
    now rewrite enters_reversed, meets_boundary_reversed.
Qed.

(** * Further properties of the script *)

(** ** Waypoints read from the input *)

Lemma parse_pois_points (pois_data : list Feature) (pois : list coord)
    (feature : option Feature) :
  fst (parse_pois pois_data pois feature) = pois ++ point_coords pois_data.
Proof.
  revert pois feature.
  induction pois_data as [|f rest IH]; intros pois feature; simpl.
  - now rewrite app_nil_r.
  - destruct (geometry f); rewrite IH; simpl; try reflexivity.
    now rewrite <- app_assoc.
Qed.

Lemma point_coords_length (features : list Feature) :
  length (point_coords features) <= length features.
Proof.
  induction features as [|f rest IH]; simpl; [lia|].
  rewrite length_app. destruct (geometry f); simpl; lia.
Qed.

(** Whenever the two parsing loops run to their end, the waypoints are the
    points among the first eight features of the POI collection, in their
    order, so there are at most eight of them; features that are not
    points are skipped.  And when the POI collection is empty while the
    boundaries collection is not, line 31 reads a name that was never
    bound and the script ends in [NameError]. *)
Theorem parse_reads_first_eight_points
    (poi_features boundaries_data : list Feature) :
  (forall pois boundaries,
     parse poi_features boundaries_data = Ok (pois, boundaries) ->
     pois = point_coords (firstn 8 poi_features) /\ length pois <= 8)
  /\ (poi_features = [] -> boundaries_data <> [] ->
      parse poi_features boundaries_data = Raise NameError).
Proof.
  split.
  - intros pois0 boundaries. unfold parse.
    pose proof (parse_pois_points (load_pois poi_features) [] None) as Hp.
    destruct (parse_pois (load_pois poi_features) [] None) as [pois feature].
    simpl in Hp. subst pois.
    destruct (parse_boundaries feature boundaries_data []) as [bs|e];
      simpl; [|discriminate].
    intros H. injection H as <- _. split; [reflexivity|].
    etransitivity; [apply point_coords_length|].
    unfold load_pois. rewrite length_firstn. lia.
  - intros -> Hbd. destruct boundaries_data as [|b rest]; [congruence|].
    reflexivity.
Qed.

Lemma parse_reads_first_eight_points_witness :
  [pt 0 0; pt 3 0]
  = point_coords (firstn 8 [point_feature 0 0; mkFeature GOther;
                            point_feature 3 0])
  /\ length [pt 0 0; pt 3 0] <= 8.
Proof.
  apply (proj1 (parse_reads_first_eight_points
                  [point_feature 0 0; mkFeature GOther; point_feature 3 0]
                  [mkFeature GOther])
               [pt 0 0; pt 3 0] []).
  reflexivity.
Defined.

(** ** More on the path clean-up *)

Lemma no_consecutive_duplicates_tail (p : coord) (path : list coord) :
  no_consecutive_duplicates (p :: path) -> no_consecutive_duplicates path.
Proof. destruct path as [|q rest]; simpl; [auto | now intros [_ H]]. Qed.

Lemma no_consecutive_duplicates_app_r (before after : list coord) :
  no_consecutive_duplicates (before ++ after) ->
  no_consecutive_duplicates after.
Proof.
  induction before as [|a before IH]; simpl; intros H.
  - exact H.
  - apply IH. exact (no_consecutive_duplicates_tail a _ H).
Qed.

Lemma clean_step_appends (cleaned_path rest : list coord) (p : coord) :
  no_consecutive_duplicates (cleaned_path ++ p :: rest) ->
  clean_step cleaned_path p = cleaned_path ++ [p].
Proof.
  intros H. unfold clean_step.
  destruct (rev cleaned_path) as [|x r] eqn:E; [reflexivity|].
  assert (Hc : cleaned_path = rev r ++ [x]).
  { rewrite <- (rev_involutive cleaned_path), E. reflexivity. }
  rewrite Hc, <- app_assoc in H.
  apply no_consecutive_duplicates_app_r in H. simpl in H.
  destruct H as [H _]. now rewrite H.
Qed.

Lemma fold_clean_step_fixes (full_path cleaned_path : list coord) :
  no_consecutive_duplicates (cleaned_path ++ full_path) ->
  fold_left clean_step full_path cleaned_path = cleaned_path ++ full_path.
Proof.
  revert cleaned_path.
  induction full_path as [|p rest IH]; intros cleaned_path H; simpl.
  - now rewrite app_nil_r.
  - rewrite (clean_step_appends cleaned_path rest p H).
    rewrite IH; rewrite <- app_assoc; [reflexivity | exact H].
Qed.

(** A path without equal consecutive points goes through the clean-up
    unchanged, so cleaning twice is cleaning once. *)
Theorem cleanup_is_idempotent :
  (forall path, no_consecutive_duplicates path ->
     remove_consecutive_duplicates path = path)
  /\ (forall full_path,
        remove_consecutive_duplicates
          (remove_consecutive_duplicates full_path)
        = remove_consecutive_duplicates full_path).
Proof.
  assert (H : forall path, no_consecutive_duplicates path ->
                remove_consecutive_duplicates path = path).
  { intros path Hn. apply (fold_clean_step_fixes path []). exact Hn. }
  split; [exact H|].
  intros full_path. apply H. apply fold_clean_step_keeps. exact I.
Qed.

Lemma cleanup_is_idempotent_witness :
  remove_consecutive_duplicates [pt 0 0; pt 10 0; pt 0 0]
  = [pt 0 0; pt 10 0; pt 0 0].
Proof.
  apply (proj1 cleanup_is_idempotent). simpl. repeat split; reflexivity.
Defined.

Lemma clean_step_origin (cleaned_path : list coord) (p x : coord) :
  In x (clean_step cleaned_path p) -> In x cleaned_path \/ x = p.
Proof.
  unfold clean_step.
  destruct (rev cleaned_path) as [|last_kept r];
    [|destruct (negb (coord_eqb p last_kept))];
    intros H; try (now left);
    apply in_app_or in H as [H | [<- | []]]; auto.
Qed.

Lemma clean_step_incl (cleaned_path : list coord) (p x : coord) :
  In x cleaned_path -> In x (clean_step cleaned_path p).
Proof.
  intros H. unfold clean_step.
  destruct (rev cleaned_path) as [|last_kept r];
    [|destruct (negb (coord_eqb p last_kept))];
    try exact H; apply in_or_app; now left.
Qed.

Lemma clean_step_represents (cleaned_path : list coord) (p : coord) :
  represented p (clean_step cleaned_path p).
Proof.
  unfold clean_step, represented.
  destruct (rev cleaned_path) as [|last_kept r] eqn:E.
  - exists p. split; [apply in_or_app; right; now left | now left].
  - destruct (coord_eqb p last_kept) eqn:Ep; simpl.
    + exists last_kept. split; [|now right].
      apply in_rev. rewrite E. now left.
    + exists p. split; [apply in_or_app; right; now left | now left].
Qed.

Lemma fold_clean_step_origin (full_path cleaned_path : list coord) (x : coord) :
  In x (fold_left clean_step full_path cleaned_path) ->
  In x cleaned_path \/ In x full_path.
Proof.
  revert cleaned_path.
  induction full_path as [|p rest IH]; intros cleaned_path H; simpl in *.
  - now left.
  - apply IH in H as [H | H]; [|now right; right].
    apply clean_step_origin in H as [H | ->]; [now left | right; now left].
Qed.

Lemma fold_clean_step_incl (full_path cleaned_path : list coord) (x : coord) :
  In x cleaned_path -> In x (fold_left clean_step full_path cleaned_path).
Proof.
  revert cleaned_path.
  induction full_path as [|p rest IH]; intros cleaned_path H; simpl.
  - exact H.
  - apply IH, clean_step_incl, H.
Qed.

Lemma fold_clean_step_represents (full_path cleaned_path : list coord)
    (p : coord) :
  In p full_path ->
  represented p (fold_left clean_step full_path cleaned_path).
Proof.
  revert cleaned_path.
  induction full_path as [|a rest IH]; intros cleaned_path Hin; simpl.
  - destruct Hin.
  - destruct Hin as [-> | Hin]; [|now apply IH].
    destruct (clean_step_represents cleaned_path p) as (q & Hq & Hpq).
    exists q. split; [now apply fold_clean_step_incl | exact Hpq].
Qed.

Lemma clean_step_head (cleaned_path : list coord) (p : coord) :
  cleaned_path <> [] ->
  hd_error (clean_step cleaned_path p) = hd_error cleaned_path
  /\ clean_step cleaned_path p <> [].
Proof.
  intros Hne. unfold clean_step.
  destruct cleaned_path as [|a l]; [congruence|].
  destruct (rev (a :: l)) as [|last_kept r];
    [|destruct (negb (coord_eqb p last_kept))];
    simpl; split; try reflexivity; discriminate.
Qed.

Lemma fold_clean_step_head (full_path cleaned_path : list coord) :
  cleaned_path <> [] ->
  hd_error (fold_left clean_step full_path cleaned_path)
  = hd_error cleaned_path.
Proof.
  revert cleaned_path.
  induction full_path as [|p rest IH]; intros cleaned_path Hne; simpl.
  - reflexivity.
  - destruct (clean_step_head cleaned_path p Hne) as [Hh Hn].
    now rewrite IH, Hh.
Qed.

(** The clean-up invents no point and loses none: every point it returns
    is a point of the input, every point of the input is returned or equal
    to one that is, and the path still starts where it started. *)
Theorem cleanup_keeps_the_points (full_path : list coord) :
  (forall q, In q (remove_consecutive_duplicates full_path) ->
     In q full_path)
  /\ (forall p, In p full_path ->
        represented p (remove_consecutive_duplicates full_path))
  /\ hd_error (remove_consecutive_duplicates full_path) = hd_error full_path.
Proof.
  unfold remove_consecutive_duplicates. repeat split.
  - intros q Hq. apply fold_clean_step_origin in Hq as [[] | Hq]. exact Hq.
  - intros p Hp. now apply fold_clean_step_represents.
  - destruct full_path as [|p rest]; [reflexivity|]. simpl.
    rewrite fold_clean_step_head; [reflexivity | discriminate].
Qed.

Lemma cleanup_keeps_the_points_witness :
  represented (pt 10 0)
    (remove_consecutive_duplicates [pt 0 0; pt 10 0; pt 10 0; pt 10 10]).
Proof.
  apply (proj1 (proj2 (cleanup_keeps_the_points
                         [pt 0 0; pt 10 0; pt 10 0; pt 10 10]))).
  simpl. right. left. reflexivity.
Defined.

(** ** How many orders the search tries *)

Lemma selections_length {A : Type} (l : list A) :
  length (selections l) = length l.
Proof.
  induction l as [|x r IH]; simpl; [reflexivity|].
  now rewrite length_map, IH.
Qed.

Lemma selections_rest_length {A : Type} (l : list A) (x : A) (r : list A) :
  In (x, r) (selections l) -> S (length r) = length l.
Proof.
  intros H. apply selections_split in H as (l1 & l2 & -> & ->).
  rewrite !length_app. simpl. lia.
Qed.

Lemma flat_map_constant_length {A B : Type} (f : A -> list B) (l : list A)
    (c : nat) :
  (forall x, In x l -> length (f x) = c) ->
  length (flat_map f l) = length l * c.
Proof.
  induction l as [|a l IH]; intros H; simpl; [reflexivity|].
  rewrite length_app, IH, (H a); [reflexivity | now left |].
  intros x Hx. apply H. now right.
Qed.

Lemma permutations_r_length {A : Type} (r : nat) (l : list A) :
  length l = r -> length (permutations_r r l) = fact r.
Proof.
  revert l. induction r as [|r IH]; intros l Hl; simpl; [reflexivity|].
  rewrite (flat_map_constant_length _ _ (fact r)).
  - rewrite selections_length, Hl. simpl. lia.
  - intros [x rest] Hsel. simpl. rewrite length_map. apply IH.
    apply selections_rest_length in Hsel. lia.
Qed.

Lemma lex_lt_irrefl (p : list nat) : ~ lex_lt p p.
Proof.
  induction p as [|a p IH]; simpl; [auto|].
  intros [H | [_ H]]; [lia | auto].
Qed.

Lemma lex_sorted_NoDup (ps : list (list nat)) :
  StronglySorted lex_lt ps -> NoDup ps.
Proof.
  induction 1 as [|p ps Hs IH Hp]; constructor; [|exact IH].
  intros Hin. rewrite Forall_forall in Hp.
  exact (lex_lt_irrefl p (Hp p Hin)).
Qed.

(** The outer loop runs (n-1)! times: it meets every permutation of the
    indices 1..n-1, and each of them once. *)
Theorem search_tries_every_order_once (n : nat) :
  length (permutations (range 1 n)) = fact (n - 1)
  /\ NoDup (permutations (range 1 n))
  /\ (forall perm, In perm (permutations (range 1 n))
                   <-> Permutation perm (range 1 n)).
Proof.
  repeat split.
  - unfold permutations. rewrite permutations_r_length; [|reflexivity].
    unfold range. now rewrite length_seq.
  - apply lex_sorted_NoDup, permutations_range_lex.
  - apply permutations_spec.
  - apply permutations_spec.
Qed.

(** ** What the search returns *)

Lemma float_ltb_trans (a b c : PyFloat.float) :
  PyFloat.ltb a b = true -> PyFloat.ltb b c = true -> PyFloat.ltb a c = true.
Proof.
  unfold PyFloat.ltb, SFltb. intros Hab Hbc.
  destruct (SFcompare a b) as [[]|] eqn:E1; try discriminate.
  destruct (SFcompare b c) as [[]|] eqn:E2; try discriminate.
  now rewrite (compare_lt_trans a b c E1 E2).
Qed.

Lemma tsp_step_below_inf (dm : DistanceMatrix)
    (st : option (list nat) * PyFloat.float) (perm : list nat) :
  match fst st with
  | None => snd st = PyFloat.inf
  | Some _ => PyFloat.ltb (snd st) PyFloat.inf = true
  end ->
  match fst (tsp_step dm st perm) with
  | None => snd (tsp_step dm st perm) = PyFloat.inf
  | Some _ => PyFloat.ltb (snd (tsp_step dm st perm)) PyFloat.inf = true
  end.
Proof.
  intros H. unfold tsp_step.
  destruct (evaluate dm (legs (0 :: perm)) PyFloat.zero) as [valid total].
  destruct (valid && PyFloat.ltb total (snd st)) eqn:Hupd; [|exact H].
  apply andb_true_iff in Hupd as [_ Hlt]. simpl.
  destruct (fst st).
  - exact (float_ltb_trans _ _ _ Hlt H).
  - now rewrite H in Hlt.
Qed.

Lemma tsp_below_inf (dm : DistanceMatrix) (n : nat) :
  match fst (tsp dm n) with
  | None => snd (tsp dm n) = PyFloat.inf
  | Some _ => PyFloat.ltb (snd (tsp dm n)) PyFloat.inf = true
  end.
Proof.
  unfold tsp.
  generalize (permutations (range 1 n)).
  assert (H0 : match fst (@None (list nat), PyFloat.inf) with
               | None => snd (@None (list nat), PyFloat.inf) = PyFloat.inf
               | Some _ =>
                   PyFloat.ltb (snd (@None (list nat), PyFloat.inf))
                               PyFloat.inf = true
               end) by reflexivity.
  revert H0. generalize (@None (list nat), PyFloat.inf).
  intros st H0 todo. revert st H0.
  induction todo as [|perm todo IH]; intros st H0; simpl.
  - exact H0.
  - apply IH, tsp_step_below_inf, H0.
Qed.

Lemma add_nan_r (x : PyFloat.float) : PyFloat.add x S754_nan = S754_nan.
Proof. destruct x as [[]|[]| |[] m e]; reflexivity. Qed.

Lemma fold_add_nan (dm : DistanceMatrix) (ls : list (nat * nat)) :
  fold_left (fun t ab => PyFloat.add t (dm ab)) ls S754_nan = S754_nan.
Proof. induction ls as [|ab rest IH]; simpl; [reflexivity | exact IH]. Qed.

Lemma fold_add_nan_leg (dm : DistanceMatrix) (ls : list (nat * nat))
    (total : PyFloat.float) :
  Exists (fun ab => PyFloat.is_nan (dm ab) = true) ls ->
  fold_left (fun t ab => PyFloat.add t (dm ab)) ls total = S754_nan.
Proof.
  revert total. induction ls as [|ab rest IH]; intros total H; simpl.
  - inversion H.
  - inversion H as [? ? Hab | ? ? Hrest]; subst.
    + destruct (dm ab); try discriminate Hab.
      rewrite add_nan_r. apply fold_add_nan.
    + now apply IH.
Qed.

(** The order the search returns starts at the origin and holds every index
    once; its cost is a number below [float("inf")], and none of its legs
    is the sentinel or NaN. *)
Theorem search_returns_a_finite_tour (dm : DistanceMatrix) (n : nat)
    (best_order : list nat) (min_distance : PyFloat.float) :
  tsp dm n = (Some best_order, min_distance) ->
  hd_error best_order = Some 0
  /\ Permutation best_order (0 :: range 1 n)
  /\ PyFloat.ltb min_distance PyFloat.inf = true
  /\ PyFloat.is_nan min_distance = false
  /\ Forall (fun ab => PyFloat.eqb (dm ab) PyFloat.inf = false
                       /\ PyFloat.is_nan (dm ab) = false)
            (legs best_order).
Proof.
  intros Htsp.
  destruct (tsp_invariant_holds dm n) as (Hnan & _ & Hbest).
  pose proof (tsp_below_inf dm n) as Hinf.
  rewrite Htsp in Hnan, Hbest, Hinf. simpl in Hnan, Hbest, Hinf.
  destruct Hbest as (earlier & perm & later & Hall & -> & Hk & Hc & _).
  repeat split; try assumption.
  - constructor. apply permutations_spec. rewrite Hall. apply in_elt.
  - apply Forall_forall. intros ab Hin. split.
    + unfold no_unreachable_leg in Hk. rewrite Forall_forall in Hk.
      now apply Hk.
    + destruct (PyFloat.is_nan (dm ab)) eqn:E; [|reflexivity].
      exfalso. unfold tour_cost in Hc.
      rewrite (fold_add_nan_leg dm (legs (0 :: perm)) PyFloat.zero) in Hc.
      * rewrite <- Hc in Hnan. discriminate Hnan.
      * apply Exists_exists. exists ab. split; assumption.
Qed.

Lemma search_returns_a_finite_tour_witness :
  hd_error [0; 1; 2] = Some 0
  /\ Permutation [0; 1; 2] (0 :: range 1 3)
  /\ PyFloat.ltb (PyFloat.of_Z 20) PyFloat.inf = true
  /\ PyFloat.is_nan (PyFloat.of_Z 20) = false
  /\ Forall (fun ab => PyFloat.eqb (scenario_A_matrix ab) PyFloat.inf = false
                       /\ PyFloat.is_nan (scenario_A_matrix ab) = false)
            (legs [0; 1; 2]).
Proof.
  apply (search_returns_a_finite_tour scenario_A_matrix 3).
  vm_compute. reflexivity.
Defined.

(** The search returns no order exactly when every permutation has a
    sentinel leg or a total that is not below [float("inf")] (a sum of
    finite legs that overflows, or a NaN). *)
Theorem search_fails_exactly_without_tour_below_inf
    (dm : DistanceMatrix) (n : nat) :
  fst (tsp dm n) = None
  <-> forall perm, Permutation perm (range 1 n) ->
        has_unreachable_leg dm (0 :: perm)
        \/ PyFloat.ltb (tour_cost dm (0 :: perm)) PyFloat.inf = false.
Proof.
  destruct (tsp_invariant_holds dm n) as (_ & Hlow & Hbest).
  pose proof (tsp_below_inf dm n) as Hinf.
  split.
  - intros Hnone perm Hp. rewrite Hnone in Hbest. rewrite Hbest in Hlow.
    destruct (evaluate_cases dm (legs (0 :: perm)) PyFloat.zero)
      as [[_ Hk] | [_ Hu]].
    + right. apply Hlow; [now apply permutations_spec | exact Hk].
    + left. exact Hu.
  - intros Hall. destruct (fst (tsp dm n)) as [best_order|]; [|reflexivity].
    exfalso.
    destruct Hbest as (earlier & perm & later & Hseen & -> & Hk & Hc & _).
    destruct (Hall perm) as [Hu | Hge].
    + apply permutations_spec. rewrite Hseen. apply in_elt.
    + exact (unreachable_excludes dm (0 :: perm) Hu Hk).
    + rewrite Hc in Hge. congruence.
Qed.

Lemma last_feature_some (pois_data : list Feature) :
  pois_data <> [] -> exists f, last_feature pois_data = Some f.
Proof.
  intros Hne. destruct (last_feature pois_data) as [f|] eqn:E.
  - now exists f.
  - apply last_feature_none in E. congruence.
Qed.

(** With fewer than two waypoints the script reports no error: whatever
    the boundaries and the libraries answer, it selects the order [0] and
    prints an empty path. *)
Theorem few_waypoints_give_an_empty_path
    (intersects touches : list coord -> Polygon -> bool)
    (hypot : PyFloat.float -> PyFloat.float -> PyFloat.float)
    (shortest_path_length : Graph -> coord -> coord -> option PyFloat.float)
    (shortest_path : Graph -> coord -> coord -> option (list coord))
    (poi_features boundaries_data : list Feature) :
  poi_features <> [] ->
  length (point_coords (firstn 8 poi_features)) <= 1 ->
  main intersects touches hypot shortest_path_length shortest_path
       poi_features boundaries_data
  = Ok (OptimalPath []).
Proof.
  intros Hne Hlen. unfold main, parse.
  pose proof (parse_pois_points (load_pois poi_features) [] None) as Hp.
  pose proof (parse_pois_feature (load_pois poi_features) [] None) as Hf.
  destruct (parse_pois (load_pois poi_features) [] None) as [pois feature].
  simpl in Hp, Hf. subst pois.
  destruct (last_feature_some (load_pois poi_features)) as [f Hsome].
  { destruct poi_features; [congruence | discriminate]. }
  unfold last_feature in Hsome. rewrite Hsome in Hf. subst feature.
  rewrite parse_boundaries_bound. simpl. unfold load_pois.
  destruct (point_coords (firstn 8 poi_features)) as [|p [|q rest]].
  - reflexivity.
  - reflexivity.
  - simpl in Hlen. lia.
Qed.

Lemma few_waypoints_give_an_empty_path_witness :
  main no_contact no_contact hypot_sqrt direct_length direct_path
       [point_feature 3 4; mkFeature (GPolygon square)]
       [point_feature 0 0; point_feature 1 1]
  = Ok (OptimalPath []).
Proof.
  apply few_waypoints_give_an_empty_path.
  - discriminate.
  - simpl. lia.
Defined.

(** ** Filling the distance matrix *)

Section MatrixFill.
Variable shortest_path_length : Graph -> coord -> coord -> option PyFloat.float.
Variable G : Graph.

Lemma matrix_entry_failure (ci cj : coord) (e : exn) :
  matrix_entry shortest_path_length G ci cj = Raise e ->
  e = NodeNotFound /\ has_node G ci = false.
Proof.
  unfold matrix_entry. destruct (has_node G ci); [discriminate|].
  intros H. injection H as <-. split; reflexivity.
Qed.

Lemma dict_set_same (dm : DistanceMatrix) (key : nat * nat)
    (value : PyFloat.float) :
  dict_set dm key value key = value.
Proof. unfold dict_set. now rewrite !Nat.eqb_refl. Qed.

Lemma dict_set_other (dm : DistanceMatrix) (key k : nat * nat)
    (value : PyFloat.float) :
  k <> key -> dict_set dm key value k = dm k.
Proof.
  intros Hne. unfold dict_set.
  destruct (Nat.eqb (fst k) (fst key)) eqn:E1; [|reflexivity].
  destruct (Nat.eqb (snd k) (snd key)) eqn:E2; [|reflexivity].
  apply Nat.eqb_eq in E1. apply Nat.eqb_eq in E2.
  destruct k, key. simpl in *. congruence.
Qed.

(** What one row leaves in the dictionary. *)
Lemma fill_row_entries (i : nat) (ci : coord) (row : list (nat * coord))
    (dm dm' : DistanceMatrix) :
  fill_row shortest_path_length G i ci row dm = Ok dm' ->
  NoDup (map fst row) ->
  forall k,
    dm' k = match find (fun jc => Nat.eqb (fst jc) (snd k)) row with
            | Some (j, cj) =>
                if Nat.eqb (fst k) i then
                  if Nat.eqb i j then PyFloat.zero
                  else match shortest_path_length G ci cj with
                       | Some dist => dist
                       | None => PyFloat.inf
                       end
                else dm k
            | None => dm k
            end.
Proof.
  revert dm. induction row as [|[j cj] rest IH]; intros dm H Hnd k; simpl in H.
  - injection H as <-. reflexivity.
  - inversion Hnd as [|? ? Hj Hnd']; subst.
    assert (Hrest : forall d, fill_row shortest_path_length G i ci rest d = Ok dm' ->
              dm' k = match find (fun jc => Nat.eqb (fst jc) (snd k)) rest with
                      | Some _ => dm' k
                      | None => d k
                      end).
    { intros d Hd. rewrite (IH d Hd Hnd' k).
      destruct (find (fun jc => Nat.eqb (fst jc) (snd k)) rest) as [[j' cj']|];
        reflexivity. }
    simpl. destruct (Nat.eqb j (snd k)) eqn:Ej.
    + apply Nat.eqb_eq in Ej.
      assert (Hnone : find (fun jc => Nat.eqb (fst jc) (snd k)) rest = None).
      { destruct (find (fun jc => Nat.eqb (fst jc) (snd k)) rest) as [[j' c']|] eqn:Ef;
          [|reflexivity].
        apply find_some in Ef as [Hin Heq]. simpl in Heq.
        apply Nat.eqb_eq in Heq. exfalso. apply Hj.
        apply in_map_iff. exists (j', c'). split; [simpl; congruence | exact Hin]. }
      destruct (Nat.eqb i j) eqn:Eij.
      * rewrite (Hrest _ H), Hnone. unfold dict_set. simpl.
        apply Nat.eqb_eq in Eij. subst.
        rewrite Nat.eqb_refl, andb_true_r. reflexivity.
      * unfold matrix_entry in H.
        destruct (has_node G ci); [|discriminate]. simpl in H.
        rewrite (Hrest _ H), Hnone. unfold dict_set. simpl. subst j.
        rewrite Nat.eqb_refl, andb_true_r. reflexivity.
    + assert (Hk : forall v, dict_set dm (i, j) v k = dm k).
      { intros v. apply dict_set_other. intros ->. simpl in Ej.
        now rewrite Nat.eqb_refl in Ej. }
      destruct (Nat.eqb i j) eqn:Eij.
      * rewrite (IH _ H Hnd' k).
        destruct (find (fun jc => Nat.eqb (fst jc) (snd k)) rest) as [[j' c']|];
          rewrite ?Hk; reflexivity.
      * unfold matrix_entry in H.
        destruct (has_node G ci); [|discriminate]. simpl in H.
        rewrite (IH _ H Hnd' k).
        destruct (find (fun jc => Nat.eqb (fst jc) (snd k)) rest) as [[j' c']|];
          rewrite ?Hk; reflexivity.
Qed.

Lemma fill_row_failure (i : nat) (ci : coord) (row : list (nat * coord))
    (dm : DistanceMatrix) (e : exn) :
  fill_row shortest_path_length G i ci row dm = Raise e ->
  e = NodeNotFound /\ has_node G ci = false
  /\ exists j cj, In (j, cj) row /\ i <> j.
Proof.
  revert dm. induction row as [|[j cj] rest IH]; intros dm H; simpl in H.
  - discriminate.
  - destruct (Nat.eqb i j) eqn:Eij.
    + destruct (IH _ H) as (He & Hn & j' & cj' & Hin & Hne).
      repeat split; try assumption. exists j', cj'. split; [now right | exact Hne].
    + destruct (matrix_entry shortest_path_length G ci cj) as [dist|e'] eqn:Em;
        simpl in H.
      * destruct (IH _ H) as (He & Hn & j' & cj' & Hin & Hne).
        repeat split; try assumption.
        exists j', cj'. split; [now right | exact Hne].
      * injection H as <-.
        destruct (matrix_entry_failure ci cj e' Em) as [He Hn].
        repeat split; try assumption.
        exists j, cj. split; [now left | now apply Nat.eqb_neq].
Qed.

Lemma fill_row_missing_source (i : nat) (ci : coord)
    (row : list (nat * coord)) (dm : DistanceMatrix) :
  has_node G ci = false ->
  (exists j cj, In (j, cj) row /\ i <> j) ->
  fill_row shortest_path_length G i ci row dm = Raise NodeNotFound.
Proof.
  intros Hn. revert dm.
  induction row as [|[j cj] rest IH]; intros dm (j' & cj' & Hin & Hne).
  - destruct Hin.
  - simpl. destruct (Nat.eqb i j) eqn:Eij.
    + apply IH. exists j', cj'. split; [|exact Hne].
      destruct Hin as [Hin | Hin]; [|exact Hin].
      injection Hin as -> _. apply Nat.eqb_eq in Eij. contradiction.
    + unfold matrix_entry. rewrite Hn. reflexivity.
Qed.

Lemma fill_rows_failure (rows all : list (nat * coord)) (dm : DistanceMatrix)
    (e : exn) :
  fill_rows shortest_path_length G rows all dm = Raise e ->
  e = NodeNotFound
  /\ exists i ci, In (i, ci) rows /\ has_node G ci = false
                  /\ exists j cj, In (j, cj) all /\ i <> j.
Proof.
  revert dm. induction rows as [|[i ci] rest IH]; intros dm H; simpl in H.
  - discriminate.
  - destruct (fill_row shortest_path_length G i ci all dm) as [dm'|e'] eqn:Er;
      simpl in H.
    + destruct (IH _ H) as (He & i' & ci' & Hin & Hrest).
      split; [exact He|]. exists i', ci'. split; [now right | exact Hrest].
    + injection H as <-.
      destruct (fill_row_failure _ _ _ _ _ Er) as (He & Hn & Hj).
      split; [exact He|]. exists i, ci. split; [now left | now split].
Qed.

Lemma fill_rows_missing_source (rows all : list (nat * coord))
    (dm : DistanceMatrix) :
  (exists i ci, In (i, ci) rows /\ has_node G ci = false
                /\ exists j cj, In (j, cj) all /\ i <> j) ->
  fill_rows shortest_path_length G rows all dm = Raise NodeNotFound.
Proof.
  revert dm. induction rows as [|[i ci] rest IH];
    intros dm (i' & ci' & Hin & Hn & Hj).
  - destruct Hin.
  - simpl.
    destruct (fill_row shortest_path_length G i ci all dm) as [dm'|e] eqn:Er;
      simpl.
    + destruct Hin as [Hin | Hin].
      * injection Hin as -> ->.
        rewrite (fill_row_missing_source _ _ _ _ Hn Hj) in Er. discriminate.
      * apply IH. exists i', ci'. repeat split; assumption.
    + now destruct (fill_row_failure _ _ _ _ _ Er) as (-> & _).
Qed.

Lemma fill_rows_entries (rows all : list (nat * coord))
    (dm dm' : DistanceMatrix) :
  fill_rows shortest_path_length G rows all dm = Ok dm' ->
  NoDup (map fst rows) -> NoDup (map fst all) ->
  forall k,
    dm' k = match find (fun ic => Nat.eqb (fst ic) (fst k)) rows,
                  find (fun jc => Nat.eqb (fst jc) (snd k)) all with
            | Some (i, ci), Some (j, cj) =>
                if Nat.eqb i j then PyFloat.zero
                else match shortest_path_length G ci cj with
                     | Some dist => dist
                     | None => PyFloat.inf
                     end
            | _, _ => dm k
            end.
Proof.
  revert dm. induction rows as [|[i ci] rest IH]; intros dm H Hr Ha k;
    simpl in H.
  - injection H as <-. reflexivity.
  - inversion Hr as [|? ? Hi Hr']; subst.
    destruct (fill_row shortest_path_length G i ci all dm) as [dm1|e] eqn:Er;
      simpl in H; [|discriminate].
    rewrite (IH _ H Hr' Ha k). simpl.
    pose proof (fill_row_entries i ci all dm dm1 Er Ha k) as H1.
    destruct (Nat.eqb i (fst k)) eqn:Eik.
    + apply Nat.eqb_eq in Eik.
      assert (Hnone : find (fun ic => Nat.eqb (fst ic) (fst k)) rest = None).
      { destruct (find (fun ic => Nat.eqb (fst ic) (fst k)) rest)
          as [[i' c']|] eqn:Ef; [|reflexivity].
        apply find_some in Ef as [Hin Heq]. simpl in Heq.
        apply Nat.eqb_eq in Heq. exfalso. apply Hi.
        apply in_map_iff. exists (i', c'). split; [simpl; congruence | exact Hin]. }
      rewrite Hnone, H1. rewrite <- Eik, Nat.eqb_refl.
      destruct (find (fun jc => Nat.eqb (fst jc) (snd k)) all) as [[j cj]|];
        reflexivity.
    + assert (E : Nat.eqb (fst k) i = false).
      { apply Nat.eqb_neq. apply Nat.eqb_neq in Eik. congruence. }
      rewrite E in H1.
      destruct (find (fun ic => Nat.eqb (fst ic) (fst k)) rest) as [[i' c']|];
        destruct (find (fun jc => Nat.eqb (fst jc) (snd k)) all) as [[j cj]|];
        try reflexivity; exact H1.
Qed.

End MatrixFill.

Lemma find_indexed (poi_coords : list coord) (start j : nat) :
  find (fun jc => Nat.eqb (fst jc) j)
       (combine (seq start (length poi_coords)) poi_coords)
  = if Nat.leb start j
    then option_map (pair j) (nth_error poi_coords (j - start))
    else None.
Proof.
  revert start. induction poi_coords as [|c rest IH]; intros start; simpl.
  - destruct (Nat.leb start j); [|reflexivity].
    now destruct (j - start).
  - destruct (Nat.eqb start j) eqn:E.
    + apply Nat.eqb_eq in E. subst.
      rewrite Nat.leb_refl, Nat.sub_diag. reflexivity.
    + apply Nat.eqb_neq in E. rewrite IH.
      destruct (Nat.leb (S start) j) eqn:E1; destruct (Nat.leb start j) eqn:E2;
        try reflexivity.
      * apply Nat.leb_le in E1. replace (j - start) with (S (j - S start)) by lia.
        reflexivity.
      * apply Nat.leb_le in E1. apply Nat.leb_gt in E2. lia.
      * apply Nat.leb_gt in E1. apply Nat.leb_le in E2. lia.
Qed.

Lemma map_fst_indexed (poi_coords : list coord) (start : nat) :
  map fst (combine (seq start (length poi_coords)) poi_coords)
  = seq start (length poi_coords).
Proof.
  revert start. induction poi_coords as [|c rest IH]; intros start; simpl.
  - reflexivity.
  - now rewrite IH.
Qed.

Lemma indexed_keys (poi_coords : list coord) :
  NoDup (map fst (combine (seq 0 (length poi_coords)) poi_coords)).
Proof. rewrite map_fst_indexed. apply seq_NoDup. Qed.

Lemma in_indexed_from (poi_coords : list coord) (start i : nat) (ci : coord) :
  In (i, ci) (combine (seq start (length poi_coords)) poi_coords)
  <-> start <= i /\ nth_error poi_coords (i - start) = Some ci.
Proof.
  revert start. induction poi_coords as [|c rest IH]; intros start; simpl.
  - split; [intros [] | intros [_ H]]. now destruct (i - start).
  - rewrite IH. split.
    + intros [H | [Hle H]].
      * injection H as -> ->. rewrite Nat.sub_diag. split; [lia | reflexivity].
      * split; [lia|]. replace (i - start) with (S (i - S start)) by lia.
        exact H.
    + intros [Hle H]. destruct (Nat.eq_dec start i) as [-> | Hne].
      * rewrite Nat.sub_diag in H. injection H as ->. now left.
      * right. split; [lia|].
        replace (i - start) with (S (i - S start)) in H by lia. exact H.
Qed.

Lemma in_indexed (poi_coords : list coord) (i : nat) (ci : coord) :
  In (i, ci) (combine (seq 0 (length poi_coords)) poi_coords)
  <-> nth_error poi_coords i = Some ci.
Proof.
  rewrite in_indexed_from, Nat.sub_0_r. split; [now intros [_ H] | intros H].
  split; [lia | exact H].
Qed.

Section MatrixStage.
Variable shortest_path_length : Graph -> coord -> coord -> option PyFloat.float.
Variable G : Graph.

(** When the loops run through, the dictionary holds at every key of
    [range(n)] times [range(n)] the entry of [distance_matrix]. *)
Lemma compute_distance_matrix_entries (poi_coords : list coord)
    (dm : DistanceMatrix) (i j : nat) :
  compute_distance_matrix shortest_path_length G poi_coords = Ok dm ->
  i < length poi_coords -> j < length poi_coords ->
  dm (i, j) = distance_matrix shortest_path_length G poi_coords (i, j).
Proof.
  unfold compute_distance_matrix. intros H Hi Hj.
  rewrite (fill_rows_entries _ _ _ _ _ _ H (indexed_keys _) (indexed_keys _)).
  simpl. rewrite !find_indexed. simpl. rewrite !Nat.sub_0_r.
  apply nth_error_Some in Hi. apply nth_error_Some in Hj.
  unfold distance_matrix.
  destruct (nth_error poi_coords i) as [ci|]; [|congruence].
  destruct (nth_error poi_coords j) as [cj|]; [|congruence].
  reflexivity.
Qed.

(** The loops end in an exception exactly when there are two waypoints or
    more and one of them is not a node of the graph; the exception is
    [NodeNotFound]. *)
Lemma compute_distance_matrix_failure (poi_coords : list coord) :
  match compute_distance_matrix shortest_path_length G poi_coords with
  | Ok _ =>
      ~ (2 <= length poi_coords
         /\ Exists (fun c => has_node G c = false) poi_coords)
  | Raise e =>
      e = NodeNotFound /\ 2 <= length poi_coords
      /\ Exists (fun c => has_node G c = false) poi_coords
  end.
Proof.
  unfold compute_distance_matrix.
  set (all := combine (seq 0 (length poi_coords)) poi_coords).
  destruct (fill_rows shortest_path_length G all all (fun _ => PyFloat.inf))
    as [dm|e] eqn:E.
  - intros [Hn Hex]. apply Exists_exists in Hex as (c & Hc & Hnode).
    apply In_nth_error in Hc as [i Hi].
    assert (Hlt : i < length poi_coords) by (apply nth_error_Some; congruence).
    destruct (nth_error poi_coords (if Nat.eqb i 0 then 1 else 0)) as [cj|] eqn:Ej.
    + rewrite (fill_rows_missing_source shortest_path_length G all all) in E;
        [discriminate|].
      exists i, c. split; [now apply in_indexed|]. split; [exact Hnode|].
      exists (if Nat.eqb i 0 then 1 else 0), cj.
      split; [now apply in_indexed|].
      destruct (Nat.eqb i 0) eqn:E0; [apply Nat.eqb_eq in E0 | apply Nat.eqb_neq in E0];
        lia.
    + apply nth_error_None in Ej. destruct (Nat.eqb i 0); lia.
  - destruct (fill_rows_failure _ _ _ _ _ _ E)
      as (He & i & ci & Hi & Hnode & j & cj & Hj & Hne).
    apply in_indexed in Hi. apply in_indexed in Hj.
    split; [exact He|]. split.
    + assert (i < length poi_coords) by (apply nth_error_Some; congruence).
      assert (j < length poi_coords) by (apply nth_error_Some; congruence).
      lia.
    + apply Exists_exists. exists ci. split; [|exact Hnode].
      now apply nth_error_In in Hi.
Qed.

End MatrixStage.

(** ** Failures of the script *)

Lemma legs_in (order : list nat) (a b : nat) :
  In (a, b) (legs order) -> In a order /\ In b order.
Proof.
  induction order as [|x [|y rest] IH]; intros H.
  - destruct H.
  - destruct H.
  - change (legs (x :: y :: rest)) with ((x, y) :: legs (y :: rest)) in H.
    destruct H as [H | H].
    + injection H as -> ->. split; [now left | right; now left].
    + destruct (IH H) as [Ha Hb]. split; now right.
Qed.

Lemma legs_distinct (order : list nat) (a b : nat) :
  NoDup order -> In (a, b) (legs order) -> a <> b.
Proof.
  induction order as [|x [|y rest] IH]; intros Hnd H.
  - destruct H.
  - destruct H.
  - change (legs (x :: y :: rest)) with ((x, y) :: legs (y :: rest)) in H.
    inversion Hnd as [|? ? Hx Hnd']; subst.
    destruct H as [H | H].
    + injection H as -> ->. intros ->. apply Hx. now left.
    + now apply IH.
Qed.

(** The indices of the order the search returns are indices of waypoints,
    and no leg joins an index with itself. *)
Lemma best_order_legs (dm : DistanceMatrix) (n : nat) (best_order : list nat)
    (a b : nat) :
  fst (tsp dm n) = Some best_order ->
  In (a, b) (legs best_order) ->
  a < n /\ b < n /\ a <> b /\ PyFloat.eqb (dm (a, b)) PyFloat.inf = false.
Proof.
  intros Hbest Hin.
  destruct (tsp_invariant_holds dm n) as (_ & _ & Hinv).
  rewrite Hbest in Hinv.
  destruct Hinv as (earlier & perm & later & Hseen & -> & Hk & _).
  assert (Hp : Permutation perm (range 1 n))
    by (apply permutations_spec; rewrite Hseen; apply in_elt).
  destruct n as [|n].
  - apply Permutation_sym, Permutation_nil in Hp. subst perm. destruct Hin.
  - assert (Hall : Permutation (0 :: perm) (seq 0 (S n)))
      by (apply origin_then_range; [lia | exact Hp]).
    destruct (legs_in _ _ _ Hin) as [Ha Hb].
    apply (Permutation_in _ Hall) in Ha. apply (Permutation_in _ Hall) in Hb.
    apply in_seq in Ha. apply in_seq in Hb.
    repeat split; try lia.
    + apply (legs_distinct (0 :: perm)); [|exact Hin].
      apply (Permutation_NoDup (Permutation_sym Hall)), seq_NoDup.
    + unfold no_unreachable_leg in Hk. rewrite Forall_forall in Hk.
      now apply Hk.
Qed.

Lemma reconstruct_in_range
    (shortest_path : Graph -> coord -> coord -> option (list coord))
    (G : Graph) (poi_coords : list coord) (ls : list (nat * nat))
    (full_path : list coord) :
  (forall a b, In (a, b) ls ->
     a < length poi_coords /\ b < length poi_coords) ->
  reconstruct shortest_path G poi_coords ls full_path <> Raise IndexError.
Proof.
  revert full_path. induction ls as [|[a b] rest IH]; intros full_path H; simpl.
  - discriminate.
  - destruct (H a b (or_introl eq_refl)) as [Ha Hb].
    apply nth_error_Some in Ha. apply nth_error_Some in Hb.
    destruct (nth_error poi_coords a) as [ca|]; [|congruence].
    destruct (nth_error poi_coords b) as [cb|]; [|congruence].
    destruct (shortest_path G ca cb); [|discriminate].
    apply IH. intros x y Hxy. apply H. now right.
Qed.

Lemma reconstruct_found
    (shortest_path : Graph -> coord -> coord -> option (list coord))
    (G : Graph) (poi_coords : list coord) (ls : list (nat * nat))
    (full_path : list coord) :
  (forall a b, In (a, b) ls ->
     exists ca cb,
       nth_error poi_coords a = Some ca /\ nth_error poi_coords b = Some cb
       /\ shortest_path G ca cb <> None) ->
  exists path, reconstruct shortest_path G poi_coords ls full_path = Ok path.
Proof.
  revert full_path. induction ls as [|[a b] rest IH]; intros full_path H; simpl.
  - now exists full_path.
  - destruct (H a b (or_introl eq_refl)) as (ca & cb & -> & -> & Hsp).
    destruct (shortest_path G ca cb) as [path|]; [|congruence].
    apply IH. intros x y Hxy. apply H. now right.
Qed.

Lemma parse_failure (poi_features boundaries_data : list Feature) (e : exn) :
  parse poi_features boundaries_data = Raise e ->
  e = NameError /\ poi_features = [] /\ boundaries_data <> [].
Proof.
  unfold parse.
  pose proof (parse_pois_feature (load_pois poi_features) [] None) as Hf.
  destruct (parse_pois (load_pois poi_features) [] None) as [pois feature].
  simpl in Hf. destruct feature as [f|].
  - rewrite parse_boundaries_bound. discriminate.
  - rewrite parse_boundaries_unbound.
    destruct boundaries_data as [|b rest]; simpl; [discriminate|].
    intros H. injection H as <-. repeat split; try discriminate.
    symmetry in Hf. apply last_feature_none in Hf.
    destruct poi_features; [reflexivity | discriminate Hf].
Qed.

Lemma parse_success (poi_features boundaries_data : list Feature) :
  poi_features <> [] \/ boundaries_data = [] ->
  exists pois boundaries,
    parse poi_features boundaries_data = Ok (pois, boundaries).
Proof.
  intros H.
  destruct (parse poi_features boundaries_data) as [[pois boundaries]|e] eqn:E.
  - now exists pois, boundaries.
  - apply parse_failure in E as (_ & Hp & Hb). destruct H; congruence.
Qed.

(** The script never indexes [poi_coords] out of range: whatever the
    input and whatever the libraries answer, it does not end in
    [IndexError]. *)
Theorem script_never_raises_IndexError
    (intersects touches : list coord -> Polygon -> bool)
    (hypot : PyFloat.float -> PyFloat.float -> PyFloat.float)
    (shortest_path_length : Graph -> coord -> coord -> option PyFloat.float)
    (shortest_path : Graph -> coord -> coord -> option (list coord))
    (poi_features boundaries_data : list Feature) :
  main intersects touches hypot shortest_path_length shortest_path
       poi_features boundaries_data
  <> Raise IndexError.
Proof.
  unfold main.
  destruct (parse poi_features boundaries_data) as [[pois boundaries]|e] eqn:E;
    simpl.
  - set (G := build intersects touches hypot pois boundaries).
    pose proof (compute_distance_matrix_failure shortest_path_length G pois)
      as Hfill.
    destruct (compute_distance_matrix shortest_path_length G pois) as [dm|e];
      simpl; [|now destruct Hfill as (-> & _)].
    unfold route.
    destruct (fst (tsp dm (length pois))) as [best_order|] eqn:Hbest;
      [|discriminate].
    pose proof (reconstruct_in_range shortest_path G pois (legs best_order) [])
      as Hrec.
    destruct (reconstruct shortest_path G pois (legs best_order) [])
      as [path|e]; simpl; [discriminate|].
    intros He. apply Hrec; [|congruence].
    intros a b Hin.
    destruct (best_order_legs dm (length pois) best_order a b Hbest Hin)
      as (Ha & Hb & _). split; assumption.
  - apply parse_failure in E as (-> & _). discriminate.
Qed.

Lemma direct_answers_agree (G : Graph) (u v : coord) :
  direct_length G u v <> None -> direct_path G u v <> None.
Proof.
  unfold direct_length, direct_path.
  destruct (coord_eqb u v); [discriminate|].
  destruct (edge_weight G u v); [discriminate | congruence].
Qed.

Lemma waypoint_is_node_iff_number
    (intersects touches : list coord -> Polygon -> bool)
    (hypot : PyFloat.float -> PyFloat.float -> PyFloat.float)
    (pois : list coord) (boundaries : list Polygon) (p : coord) :
  In p pois ->
  has_node (build intersects touches hypot pois boundaries) p
  = coord_eqb p p.
Proof.
  intros Hp. unfold has_node. rewrite build_nodes.
  destruct (coord_eqb p p) eqn:Epp.
  - apply fold_set_add_knows; [exact Epp|].
    unfold collect_nodes. apply in_or_app. now left.
  - destruct (existsb (coord_eqb p) (dedup (collect_nodes pois boundaries)))
      eqn:Ex; [|reflexivity].
    apply existsb_exists in Ex as (q & _ & Hpq).
    assert (Hqp : coord_eqb q p = true) by now rewrite coord_eqb_sym.
    rewrite (coord_eqb_trans p q p Hpq Hqp) in Epp. discriminate.
Qed.

(** When networkx finds a path wherever it finds a length, the script,
    once the features are parsed, fails in one way only: with two
    waypoints or more, one of which has a NaN coordinate and so equals no
    node, the call of line 89 ends it in [NodeNotFound]; on every other
    input it ends normally.  In particular the uncaught call of line 121
    never ends in [NetworkXNoPath]. *)
Theorem script_fails_after_parsing_only_on_NaN_waypoint
    (intersects touches : list coord -> Polygon -> bool)
    (hypot : PyFloat.float -> PyFloat.float -> PyFloat.float)
    (shortest_path_length : Graph -> coord -> coord -> option PyFloat.float)
    (shortest_path : Graph -> coord -> coord -> option (list coord))
    (poi_features boundaries_data : list Feature)
    (pois : list coord) (boundaries : list Polygon) :
  (forall G u v, shortest_path_length G u v <> None ->
                 shortest_path G u v <> None) ->
  parse poi_features boundaries_data = Ok (pois, boundaries) ->
  match main intersects touches hypot shortest_path_length shortest_path
             poi_features boundaries_data with
  | Ok _ =>
      ~ (2 <= length pois /\ Exists (fun p => coord_eqb p p = false) pois)
  | Raise e =>
      e = NodeNotFound /\ 2 <= length pois
      /\ Exists (fun p => coord_eqb p p = false) pois
  end.
Proof.
  intros Hagree E. unfold main. rewrite E. simpl.
  set (G := build intersects touches hypot pois boundaries).
  assert (Hnodes : Exists (fun c => has_node G c = false) pois
                   <-> Exists (fun p => coord_eqb p p = false) pois).
  { unfold G. rewrite !Exists_exists. split; intros (p & Hp & H); exists p;
      (split; [exact Hp|]);
      [rewrite <- (waypoint_is_node_iff_number intersects touches hypot
                     pois boundaries p Hp)
      |rewrite (waypoint_is_node_iff_number intersects touches hypot
                  pois boundaries p Hp)]; exact H. }
  pose proof (compute_distance_matrix_failure shortest_path_length G pois)
    as Hfill.
  destruct (compute_distance_matrix shortest_path_length G pois) as [dm|e] eqn:Ec;
    simpl.
  - assert (Hok : ~ (2 <= length pois
                     /\ Exists (fun p => coord_eqb p p = false) pois)).
    { intros [Hn Hex]. apply Hfill. split; [exact Hn | now apply Hnodes]. }
    unfold route.
    destruct (fst (tsp dm (length pois))) as [best_order|] eqn:Hbest;
      [|exact Hok].
    destruct (reconstruct_found shortest_path G pois (legs best_order) [])
      as [path ->]; [|exact Hok].
    intros a b Hab.
    destruct (best_order_legs dm (length pois) best_order a b Hbest Hab)
      as (Ha & Hb & Hne & Hfin).
    rewrite (compute_distance_matrix_entries _ _ _ _ _ _ Ec Ha Hb) in Hfin.
    apply nth_error_Some in Ha. apply nth_error_Some in Hb.
    destruct (nth_error pois a) as [ca|] eqn:Ea; [|congruence].
    destruct (nth_error pois b) as [cb|] eqn:Eb; [|congruence].
    exists ca, cb. repeat split. apply Hagree.
    unfold distance_matrix in Hfin.
    apply Nat.eqb_neq in Hne. rewrite Hne, Ea, Eb in Hfin.
    destruct (shortest_path_length G ca cb); [discriminate|].
    discriminate Hfin.
  - destruct Hfill as (He & Hn & Hex). repeat split; try assumption.
    now apply Hnodes.
Qed.

Lemma script_fails_after_parsing_only_on_NaN_waypoint_witness :
  match main no_contact no_contact hypot_sqrt direct_length direct_path
             [point_feature 0 0; mkFeature (GPoint (S754_nan, PyFloat.zero))]
             [] with
  | Ok _ =>
      ~ (2 <= length [pt 0 0; (S754_nan, PyFloat.zero)]
         /\ Exists (fun p => coord_eqb p p = false)
                   [pt 0 0; (S754_nan, PyFloat.zero)])
  | Raise e =>
      e = NodeNotFound
      /\ 2 <= length [pt 0 0; (S754_nan, PyFloat.zero)]
      /\ Exists (fun p => coord_eqb p p = false)
                [pt 0 0; (S754_nan, PyFloat.zero)]
  end.
Proof.
  apply (script_fails_after_parsing_only_on_NaN_waypoint
           no_contact no_contact hypot_sqrt direct_length direct_path
           [point_feature 0 0; mkFeature (GPoint (S754_nan, PyFloat.zero))] []
           [pt 0 0; (S754_nan, PyFloat.zero)] []).
  - exact direct_answers_agree.
  - reflexivity.
Defined.

(** ** The route and the waypoints *)

Lemma reconstruct_legs
    (shortest_path : Graph -> coord -> coord -> option (list coord))
    (G : Graph) (poi_coords : list coord) (ls : list (nat * nat))
    (full_path path_so_far : list coord) :
  reconstruct shortest_path G poi_coords ls path_so_far = Ok full_path ->
  (forall x, In x path_so_far -> In x full_path)
  /\ forall a b, In (a, b) ls ->
       exists ca cb path,
         nth_error poi_coords a = Some ca
         /\ nth_error poi_coords b = Some cb
         /\ shortest_path G ca cb = Some path
         /\ forall x, In x path -> In x full_path.
Proof.
  revert path_so_far.
  induction ls as [|[a b] rest IH]; intros path_so_far H; simpl in H.
  - injection H as <-. split; [auto | intros a b []].
  - destruct (nth_error poi_coords a) as [ca|] eqn:Ea; [|discriminate].
    destruct (nth_error poi_coords b) as [cb|] eqn:Eb; [|discriminate].
    destruct (shortest_path G ca cb) as [path|] eqn:Ep; [|discriminate].
    destruct (IH _ H) as [Hacc Hlegs]. split.
    + intros x Hx. apply Hacc, in_or_app. now left.
    + intros a' b' [Hab | Hab].
      * injection Hab as <- <-. exists ca, cb, path.
        repeat split; try assumption.
        intros x Hx. apply Hacc, in_or_app. now right.
      * now apply Hlegs.
Qed.

Lemma represented_trans (p q : coord) (path : list coord) :
  (q = p \/ coord_eqb p q = true) -> represented q path -> represented p path.
Proof.
  intros Hpq (r & Hr & Hqr). exists r. split; [exact Hr|].
  destruct Hpq as [-> | Hpq]; [exact Hqr|].
  destruct Hqr as [-> | Hqr]; [now right|].
  right. exact (coord_eqb_trans p q r Hpq Hqr).
Qed.

(** With two waypoints or more, and leg paths that hold their two ends,
    as those of networkx do, the printed route passes through every
    waypoint. *)
Theorem route_passes_through_every_waypoint
    (shortest_path : Graph -> coord -> coord -> option (list coord))
    (G : Graph) (poi_coords : list coord) (dm : DistanceMatrix)
    (cleaned_path : list coord) :
  (forall u v path, shortest_path G u v = Some path ->
     represented u path /\ represented v path) ->
  2 <= length poi_coords ->
  route shortest_path G poi_coords dm = Ok (OptimalPath cleaned_path) ->
  forall p, In p poi_coords -> represented p cleaned_path.
Proof.
  intros Hends Hn Hroute p Hp. unfold route in Hroute.
  destruct (fst (tsp dm (length poi_coords))) as [best_order|] eqn:Hbest;
    [|discriminate].
  destruct (reconstruct shortest_path G poi_coords (legs best_order) [])
    as [full_path|e] eqn:Hrec; simpl in Hroute; [|discriminate].
  injection Hroute as <-.
  destruct (reconstruct_legs _ _ _ _ _ _ Hrec) as [_ Hlegs].
  apply In_nth_error in Hp as [i Hi].
  assert (Hlt : i < length poi_coords)
    by (apply nth_error_Some; congruence).
  destruct (tsp_invariant_holds dm (length poi_coords)) as (_ & _ & Hinv).
  rewrite Hbest in Hinv.
  destruct Hinv as (earlier & perm & later & Hseen & -> & _).
  assert (Hall : Permutation (0 :: perm) (seq 0 (length poi_coords))).
  { apply origin_then_range; [lia|].
    apply permutations_spec. rewrite Hseen. apply in_elt. }
  destruct (legs_neighbour (0 :: perm) i) as (a & _ & Hleg).
  - apply (Permutation_in i (Permutation_sym Hall)). apply in_seq. lia.
  - rewrite (Permutation_length Hall), length_seq. exact Hn.
  - apply (Permutation_NoDup (Permutation_sym Hall)), seq_NoDup.
  - assert (Hrep : represented p full_path).
    { destruct Hleg as [Hleg | Hleg];
        destruct (Hlegs _ _ Hleg) as (ca & cb & path & Ea & Eb & Esp & Hincl);
        destruct (Hends _ _ _ Esp) as [Hu Hv].
      - rewrite Hi in Eb. injection Eb as <-.
        destruct Hv as (q & Hq & Hpq). exists q. auto.
      - rewrite Hi in Ea. injection Ea as <-.
        destruct Hu as (q & Hq & Hpq). exists q. auto. }
    destruct Hrep as (q & Hq & Hpq).
    apply (represented_trans p q); [exact Hpq|].
    unfold remove_consecutive_duplicates.
    now apply fold_clean_step_represents.
Qed.

Lemma direct_path_ends (G : Graph) (u v : coord) (path : list coord) :
  direct_path G u v = Some path -> represented u path /\ represented v path.
Proof.
  unfold direct_path, represented.
  destruct (coord_eqb u v) eqn:E.
  - intros H. injection H as <-. split.
    + exists u. split; [now left | now left].
    + exists u. split; [now left | right; now rewrite coord_eqb_sym].
  - destruct (edge_weight G u v); [|discriminate].
    intros H. injection H as <-. split.
    + exists u. split; [now left | now left].
    + exists v. split; [right; now left | now left].
Qed.

Lemma route_passes_through_every_waypoint_witness :
  represented (pt 10 0) [pt 0 0; pt 10 0; pt 10 10].
Proof.
  apply (route_passes_through_every_waypoint direct_path scenario_A_graph
           [pt 0 0; pt 10 0; pt 10 10] scenario_A_matrix).
  - apply direct_path_ends.
  - simpl. lia.
  - vm_compute. reflexivity.
  - simpl. right. left. reflexivity.
Defined.

(** ** The edges of the visibility graph *)

Lemma node_pairs_in (nodes : list coord) (u v : coord) :
  In (u, v) (node_pairs nodes) -> In u nodes /\ In v nodes.
Proof.
  induction nodes as [|p1 later IH]; simpl; intros H; [destruct H|].
  apply in_app_or in H as [H | H].
  - apply in_map_iff in H as (x & E & Hx). injection E as <- <-.
    split; [now left | now right].
  - destruct (IH H) as [Hu Hv]. split; now right.
Qed.

Lemma node_pairs_apart (nodes : list coord) (u v : coord) :
  pairwise_distinct nodes -> In (u, v) (node_pairs nodes) ->
  coord_eqb v u = false.
Proof.
  induction nodes as [|p1 later IH]; simpl; intros Hd H; [destruct H|].
  apply StronglySorted_inv in Hd as [Hd Hp1].
  apply in_app_or in H as [H | H].
  - apply in_map_iff in H as (x & E & Hx). injection E as <- <-.
    rewrite Forall_forall in Hp1. now apply Hp1.
  - now apply IH.
Qed.

Lemma node_pairs_length (nodes : list coord) :
  2 * length (node_pairs nodes) = length nodes * (length nodes - 1).
Proof.
  induction nodes as [|p1 later IH]; simpl; [reflexivity|].
  rewrite length_app, length_map, Nat.sub_0_r.
  destruct later as [|p2 rest]; simpl in *; [reflexivity|].
  rewrite Nat.sub_0_r in IH. nia.
Qed.

Lemma node_pairs_distinct (nodes : list coord) :
  pairwise_distinct nodes -> distinct_pairs (node_pairs nodes).
Proof.
  unfold distinct_pairs.
  induction nodes as [|p1 later IH]; simpl; intros Hd; [constructor|].
  apply StronglySorted_inv in Hd as [Hd Hp1].
  rewrite Forall_forall in Hp1.
  apply StronglySorted_app.
  - clear IH. induction later as [|x later IHl]; simpl; constructor.
    + apply IHl.
      * now apply StronglySorted_inv in Hd.
      * intros y Hy. apply Hp1. now right.
    + apply StronglySorted_inv in Hd as [_ Hx].
      rewrite Forall_forall in Hx.
      apply Forall_forall. intros pq Hpq.
      apply in_map_iff in Hpq as (y & <- & Hy). simpl.
      rewrite (coord_eqb_sym x y), (Hx y Hy), andb_false_r. simpl.
      rewrite (coord_eqb_sym p1 y), (Hp1 y (or_intror Hy)). reflexivity.
  - apply IH, Hd.
  - intros ab uv Hab Huv.
    apply in_map_iff in Hab as (x & <- & Hx).
    destruct uv as [u v]. apply node_pairs_in in Huv as [Hu Hv]. simpl.
    rewrite (coord_eqb_sym p1 u), (Hp1 u Hu).
    rewrite (coord_eqb_sym p1 v), (Hp1 v Hv). reflexivity.
Qed.

Section Edges.
Variable intersects touches : list coord -> Polygon -> bool.
Variable hypot : PyFloat.float -> PyFloat.float -> PyFloat.float.
Variable boundaries : list Polygon.

Let edge_step (G : Graph) (pq : coord * coord) : Graph :=
  if is_valid_edge intersects touches (fst pq) (snd pq) boundaries
  then add_edge G (fst pq) (snd pq)
         (hypot (PyFloat.sub (fst (snd pq)) (fst (fst pq)))
                (PyFloat.sub (snd (snd pq)) (snd (fst pq))))
  else G.

Lemma add_edges_from_pairs (p1 : coord) (later : list coord) (G : Graph) :
  add_edges_from intersects touches hypot boundaries p1 later G
  = fold_left edge_step (map (pair p1) later) G.
Proof.
  unfold add_edges_from. revert G.
  induction later as [|p2 later IH]; intros G; simpl; [reflexivity|].
  now rewrite IH.
Qed.

Lemma add_edges_pairs (nodes : list coord) (G : Graph) :
  add_edges intersects touches hypot boundaries nodes G
  = fold_left edge_step (node_pairs nodes) G.
Proof.
  revert G. induction nodes as [|p1 later IH]; intros G; simpl.
  - reflexivity.
  - now rewrite fold_left_app, IH, add_edges_from_pairs.
Qed.

Lemma filter_keeps_all {A : Type} (f : A -> bool) (l : list A) :
  (forall x, In x l -> f x = true) -> filter f l = l.
Proof.
  induction l as [|a l IH]; intros H; simpl; [reflexivity|].
  rewrite (H a (or_introl eq_refl)), IH; [reflexivity|].
  intros x Hx. apply H. now right.
Qed.

Lemma fold_edge_step_edges (pairs : list (coord * coord)) (G : Graph) :
  distinct_pairs pairs ->
  (forall e pq, In e (g_edges G) -> In pq pairs ->
     same_edge (fst pq) (snd pq) e = false) ->
  g_edges (fold_left edge_step pairs G)
  = g_edges G
    ++ map (weighted_edge hypot)
         (filter (fun pq => is_valid_edge intersects touches (fst pq) (snd pq)
                              boundaries) pairs).
Proof.
  revert G. induction pairs as [|pq rest IH]; intros G Hd Hold; simpl.
  - now rewrite app_nil_r.
  - apply StronglySorted_inv in Hd as [Hd Hpq].
    rewrite Forall_forall in Hpq.
    unfold edge_step at 2.
    destruct (is_valid_edge intersects touches (fst pq) (snd pq) boundaries).
    + rewrite IH; [|exact Hd|].
      * simpl. rewrite filter_keeps_all.
        -- rewrite <- app_assoc. reflexivity.
        -- intros e He. rewrite (Hold e pq He); [reflexivity | now left].
      * intros e uv He Huv. simpl in He.
        rewrite filter_keeps_all in He.
        -- apply in_app_or in He as [He | [<- | []]].
           ++ apply Hold; [exact He | now right].
           ++ exact (Hpq uv Huv).
        -- intros e' He'. rewrite (Hold e' pq He'); [reflexivity | now left].
    + apply IH; [exact Hd|].
      intros e uv He Huv. apply Hold; [exact He | now right].
Qed.

Lemma add_nodes_edges (nodes : list coord) (G : Graph) :
  g_edges (fold_left add_node nodes G) = g_edges G.
Proof.
  revert G. induction nodes as [|v nodes IH]; intros G; simpl.
  - reflexivity.
  - now rewrite IH.
Qed.

Lemma build_edges (pois : list coord) :
  g_edges (build intersects touches hypot pois boundaries)
  = admissible_edges intersects touches hypot boundaries
      (dedup (collect_nodes pois boundaries)).
Proof.
  unfold build, admissible_edges.
  rewrite add_edges_pairs, fold_edge_step_edges.
  - now rewrite add_nodes_edges.
  - apply node_pairs_distinct, dedup_distinct.
  - intros e pq He. rewrite add_nodes_edges in He. destruct He.
Qed.

End Edges.

(** The graph holds one edge for each admissible pair of nodes and no
    other: its edge list is the list of pairs [(nodes[i], nodes[j])],
    [i < j], that pass [is_valid_edge], each with the [hypot] of its
    coordinate differences as weight; no later [add_edge] overwrites an
    earlier one. *)
Theorem build_keeps_exactly_the_admissible_pairs
    (intersects touches : list coord -> Polygon -> bool)
    (hypot : PyFloat.float -> PyFloat.float -> PyFloat.float)
    (pois : list coord) (boundaries : list Polygon) :
  let G := build intersects touches hypot pois boundaries in
  g_edges G
  = admissible_edges intersects touches hypot boundaries (g_nodes G)
  /\ forall u v w,
       In (u, v, w) (g_edges G)
       <-> In (u, v) (node_pairs (g_nodes G))
           /\ is_valid_edge intersects touches u v boundaries = true
           /\ w = hypot (PyFloat.sub (fst v) (fst u))
                        (PyFloat.sub (snd v) (snd u)).
Proof.
  simpl. rewrite build_edges, build_nodes. split; [reflexivity|].
  intros u v w. unfold admissible_edges. rewrite in_map_iff. split.
  - intros ([p q] & E & Hin). apply filter_In in Hin as [Hin Hv].
    unfold weighted_edge in E. simpl in *. injection E as <- <- <-.
    repeat split; assumption.
  - intros (Hin & Hv & ->). exists (u, v). split; [reflexivity|].
    apply filter_In. split; assumption.
Qed.

(** Every edge joins two nodes of the graph that are not equal: the graph
    has no loop, and no edge to a point that is not a node. *)
Theorem edges_join_distinct_nodes
    (intersects touches : list coord -> Polygon -> bool)
    (hypot : PyFloat.float -> PyFloat.float -> PyFloat.float)
    (pois : list coord) (boundaries : list Polygon)
    (u v : coord) (w : PyFloat.float) :
  let G := build intersects touches hypot pois boundaries in
  In (u, v, w) (g_edges G) ->
  In u (g_nodes G) /\ In v (g_nodes G)
  /\ coord_eqb u v = false /\ coord_eqb v u = false.
Proof.
  simpl. rewrite build_edges, build_nodes. unfold admissible_edges.
  intros H. apply in_map_iff in H as ([p q] & E & Hin).
  apply filter_In in Hin as [Hin _].
  unfold weighted_edge in E. simpl in E. injection E as <- <- _.
  destruct (node_pairs_in _ _ _ Hin) as [Hp Hq].
  pose proof (node_pairs_apart _ _ _ (dedup_distinct _) Hin) as Hne.
  repeat split; try assumption. now rewrite coord_eqb_sym.
Qed.

Lemma edges_join_distinct_nodes_witness :
  In (pt 0 0) (g_nodes scenario_A_graph)
  /\ In (pt 10 10) (g_nodes scenario_A_graph)
  /\ coord_eqb (pt 0 0) (pt 10 10) = false
  /\ coord_eqb (pt 10 10) (pt 0 0) = false.
Proof.
  apply (edges_join_distinct_nodes no_contact no_contact hypot_sqrt
           [pt 0 0; pt 10 0; pt 10 10] []
           (pt 0 0) (pt 10 10) (hypot_sqrt (PyFloat.of_Z 10) (PyFloat.of_Z 10))).
  vm_compute. right. left. reflexivity.
Defined.

(** With no boundary the graph is complete: every pair of nodes is joined,
    which makes n(n-1)/2 edges on n nodes. *)
Theorem graph_without_boundary_is_complete
    (intersects touches : list coord -> Polygon -> bool)
    (hypot : PyFloat.float -> PyFloat.float -> PyFloat.float)
    (pois : list coord) :
  let G := build intersects touches hypot pois [] in
  g_edges G = map (weighted_edge hypot) (node_pairs (g_nodes G))
  /\ 2 * length (g_edges G) = length (g_nodes G) * (length (g_nodes G) - 1).
Proof.
  simpl. rewrite build_edges, build_nodes. unfold admissible_edges.
  rewrite filter_keeps_all by reflexivity.
  split; [reflexivity|].
  rewrite length_map. apply node_pairs_length.
Qed.

(** ** The shortest-path search *)

Lemma coord_eqb_right (a u u' : coord) :
  coord_eqb u u' = true -> coord_eqb a u = coord_eqb a u'.
Proof.
  intros H.
  destruct (coord_eqb a u) eqn:E1, (coord_eqb a u') eqn:E2; try reflexivity.
  - rewrite (coord_eqb_trans a u u' E1 H) in E2. discriminate.
  - rewrite coord_eqb_sym in H.
    rewrite (coord_eqb_trans a u' u E2 H) in E1. discriminate.
Qed.

Lemma same_edge_right (u v v' : coord) (e : coord * coord * PyFloat.float) :
  coord_eqb v v' = true -> same_edge u v e = same_edge u v' e.
Proof.
  intros Hv. destruct e as [[a b] w]. simpl.
  now rewrite (coord_eqb_right b v v' Hv), (coord_eqb_right a v v' Hv).
Qed.

Lemma same_edge_reversed (u v : coord) (e : coord * coord * PyFloat.float) :
  same_edge u v e = same_edge v u e.
Proof. destruct e as [[a b] w]. simpl. apply orb_comm. Qed.

Lemma find_pointwise {A : Type} (f g : A -> bool) (l : list A) :
  (forall x, f x = g x) -> find f l = find g l.
Proof.
  intros H. induction l as [|x l IH]; simpl; [reflexivity|].
  now rewrite H, IH.
Qed.

Lemma edge_weight_reversed (G : Graph) (u v : coord) :
  edge_weight G u v = edge_weight G v u.
Proof.
  unfold edge_weight.
  now rewrite (find_pointwise _ _ _ (same_edge_reversed u v)).
Qed.

Lemma edge_weight_right (G : Graph) (u v v' : coord) :
  coord_eqb v v' = true -> edge_weight G u v = edge_weight G u v'.
Proof.
  intros Hv. unfold edge_weight.
  now rewrite (find_pointwise _ _ _ (fun e => same_edge_right u v v' e Hv)).
Qed.


Lemma joined_in (G : Graph) (s c : coord) :
  joined G s c -> In c (g_nodes G).
Proof. intros H. destruct H; assumption. Qed.

Lemma joined_ends (G : Graph) (s c c' : coord) :
  joined G s c -> In c' (g_nodes G) -> coord_eqb c c' = true ->
  joined G s c'.
Proof.
  intros H Hin Hcc. destruct H as [c Hc Hs | u c Hu Hc He].
  - apply joined_source; [exact Hin|].
    exact (coord_eqb_trans s c c' Hs Hcc).
  - apply (joined_edge G s u); [exact Hu | exact Hin|].
    now rewrite <- (edge_weight_right G u c c' Hcc).
Qed.

Lemma joined_back (G : Graph) (s u : coord) :
  joined G s u ->
  forall x, joined G x u ->
    exists c, coord_eqb s c = true /\ joined G x c.
Proof.
  induction 1 as [c Hc Hs | u c Hu IH Hc He]; intros x Hx.
  - exists c. split; assumption.
  - apply IH. apply (joined_edge G x c); [exact Hx | |].
    + exact (joined_in G s u Hu).
    + now rewrite edge_weight_reversed.
Qed.

Lemma connected_sym (G : Graph) (s t : coord) :
  connected G s t -> connected G t s.
Proof.
  intros (c & Ht & Hj).
  apply (joined_back G s c Hj t).
  apply joined_source; [exact (joined_in G s c Hj) | exact Ht].
Qed.

Section SearchFacts.
Import Dijkstra.
Variable G : Graph.

Lemma extract_least_split (st : list label) (u : coord) (du : PyFloat.float)
    (st' : list label) :
  extract_least st = Some (u, du, st') ->
  exists pre post : list label,
    st = pre ++ ((u, Some du, false) : label) :: post
    /\ st' = pre ++ ((u, Some du, true) : label) :: post.
Proof.
  revert u du st'.
  induction st as [|[[c d] f] rest IH]; intros u du st' H; simpl in H;
    [discriminate|].
  destruct (extract_least rest) as [[[c' d'] rest']|] eqn:E.
  - destruct (IH _ _ _ eq_refl) as (pre & post & -> & ->).
    destruct d as [d|], f;
      try (injection H as <- <- <-;
           eexists (_ :: pre), post; split; reflexivity).
    destruct (PyFloat.ltb d' d); injection H as <- <- <-.
    + now exists ((c, Some d, false) :: pre), post.
    + now exists [], (pre ++ (c', Some d', false) :: post).
  - destruct d as [d|], f; try discriminate.
    injection H as <- <- <-. now exists [], rest.
Qed.

Lemma extract_least_none (st : list label) :
  extract_least st = None ->
  forall l, In l st -> tentative l = None \/ final l = true.
Proof.
  induction st as [|[[c d] f] rest IH]; intros H l Hl; simpl in H;
    [destruct Hl|].
  destruct (extract_least rest) as [[[c' d'] rest']|] eqn:E.
  - destruct d as [d|], f; try discriminate.
    destruct (PyFloat.ltb d' d); discriminate.
  - destruct Hl as [<- | Hl]; [|now apply IH].
    destruct d as [d|], f; try discriminate; auto.
Qed.


Lemma relax_label_node (u : coord) (du : PyFloat.float) (l : label) :
  node (relax_label G u du l) = node l.
Proof.
  unfold relax_label.
  destruct (final l); [reflexivity|].
  destruct (edge_weight G u (node l)); [|reflexivity].
  destruct (tentative l) as [old|]; [|reflexivity].
  destruct (PyFloat.ltb _ old); reflexivity.
Qed.

Lemma relax_label_final (u : coord) (du : PyFloat.float) (l : label) :
  final (relax_label G u du l) = final l.
Proof.
  unfold relax_label.
  destruct (final l) eqn:F; [exact F|].
  destruct (edge_weight G u (node l)); [|exact F].
  destruct (tentative l) as [old|]; [|reflexivity].
  destruct (PyFloat.ltb _ old); [reflexivity | exact F].
Qed.

Lemma relax_label_keeps_final (u : coord) (du : PyFloat.float) (l : label) :
  final l = true -> relax_label G u du l = l.
Proof. intros F. unfold relax_label. now rewrite F. Qed.

Lemma relax_label_labelled (u : coord) (du : PyFloat.float) (l : label) :
  tentative l <> None -> tentative (relax_label G u du l) <> None.
Proof.
  unfold relax_label. intros H.
  destruct (final l); [exact H|].
  destruct (edge_weight G u (node l)); [|exact H].
  destruct (tentative l) as [old|] eqn:T; [|discriminate].
  destruct (PyFloat.ltb _ old); [discriminate | now rewrite T].
Qed.

Lemma relax_label_reaches (u : coord) (du : PyFloat.float) (l : label) :
  edge_weight G u (node l) <> None -> final l = false ->
  tentative (relax_label G u du l) <> None.
Proof.
  unfold relax_label. intros He F. rewrite F.
  destruct (edge_weight G u (node l)); [|congruence].
  destruct (tentative l) as [old|] eqn:T; [|discriminate].
  destruct (PyFloat.ltb _ old); [discriminate | now rewrite T].
Qed.

Lemma relax_label_cases (u : coord) (du : PyFloat.float) (l : label) :
  relax_label G u du l = l
  \/ (edge_weight G u (node l) <> None /\ final l = false).
Proof.
  unfold relax_label.
  destruct (final l); [now left|].
  destruct (edge_weight G u (node l)); [|now left].
  right. split; [discriminate | reflexivity].
Qed.

Variable source : coord.

Lemma init_invariant : search_invariant G source (init G source).
Proof.
  unfold search_invariant, init. repeat split.
  - rewrite map_map. simpl. apply map_id.
  - intros l Hl F. apply in_map_iff in Hl as (c & <- & _). discriminate.
  - intros l Hl T. apply in_map_iff in Hl as (c & <- & Hc).
    unfold tentative, node in *. simpl in *.
    destruct (coord_eqb source c) eqn:E; [|congruence].
    now apply joined_source.
  - intros l Hl E. apply in_map_iff in Hl as (c & <- & Hc).
    unfold tentative, node in *. simpl in *. rewrite E. discriminate.
  - intros l l' Hl _ F. apply in_map_iff in Hl as (c & <- & _). discriminate.
Qed.

Lemma round_invariant (st : list label) (u : coord) (du : PyFloat.float)
    (st' : list label) :
  search_invariant G source st ->
  extract_least st = Some (u, du, st') ->
  search_invariant G source (relax G u du st').
Proof.
  intros (Ha & Hb & Hc & Hd & He) Hex.
  destruct (extract_least_split _ _ _ _ Hex) as (pre & post & -> & ->).
  set (x := (u, Some du, false) : label) in *.
  set (x' := (u, Some du, true) : label).
  assert (Hx : In x (pre ++ x :: post)) by (apply in_elt).
  assert (Hst' : forall l, In l (pre ++ x' :: post) ->
                   l = x' \/ In l (pre ++ x :: post)).
  { intros l Hl. apply in_app_or in Hl as [Hl | [<- | Hl]].
    - right. apply in_or_app. now left.
    - now left.
    - right. apply in_or_app. right. now right. }
  assert (Hu : joined G source u).
  { apply (Hc x Hx). discriminate. }
  assert (Ha' : map node (pre ++ x' :: post) = g_nodes G).
  { rewrite <- Ha, !map_app. reflexivity. }
  assert (Hb' : forall l, In l (pre ++ x' :: post) -> final l = true ->
                  tentative l <> None).
  { intros l Hl F. destruct (Hst' l Hl) as [-> | Hl']; [discriminate|].
    now apply Hb. }
  assert (Hd' : forall l, In l (pre ++ x' :: post) ->
                  coord_eqb source (node l) = true -> tentative l <> None).
  { intros l Hl E. destruct (Hst' l Hl) as [-> | Hl']; [discriminate|].
    now apply Hd. }
  unfold search_invariant, relax. repeat split.
  - rewrite map_map, <- Ha'. apply map_ext. intros l.
    apply relax_label_node.
  - intros l2 Hl2 F. apply in_map_iff in Hl2 as (l1 & <- & Hl1).
    rewrite relax_label_final in F.
    rewrite (relax_label_keeps_final u du l1 F). now apply Hb'.
  - intros l2 Hl2 T. apply in_map_iff in Hl2 as (l1 & <- & Hl1).
    rewrite relax_label_node.
    destruct (relax_label_cases u du l1) as [E | [E F]].
    + rewrite E in T.
      destruct (Hst' l1 Hl1) as [-> | Hl']; [exact Hu | now apply Hc].
    + apply (joined_edge G source u); [exact Hu | | exact E].
      rewrite <- Ha'. now apply in_map.
  - intros l2 Hl2 E. apply in_map_iff in Hl2 as (l1 & <- & Hl1).
    rewrite relax_label_node in E.
    apply relax_label_labelled. now apply Hd'.
  - intros l2 l2' Hl2 Hl2' F E.
    apply in_map_iff in Hl2 as (l1 & <- & Hl1).
    apply in_map_iff in Hl2' as (l1' & <- & Hl1').
    rewrite relax_label_final in F.
    rewrite !relax_label_node in E.
    destruct (final l1') eqn:F'.
    { rewrite (relax_label_keeps_final u du l1' F'). now apply Hb'. }
    destruct (Hst' l1 Hl1) as [-> | Hl].
    + now apply relax_label_reaches.
    + apply relax_label_labelled.
      destruct (Hst' l1' Hl1') as [-> | Hl']; [discriminate|].
      now apply (He l1 l1').
Qed.

Lemma search_invariant_kept (rounds : nat) (st : list label) :
  search_invariant G source st ->
  search_invariant G source (search G rounds st).
Proof.
  revert st. induction rounds as [|rounds IH]; intros st H; simpl.
  - exact H.
  - destruct (extract_least st) as [[[u du] st']|] eqn:E; [|exact H].
    apply IH. exact (round_invariant st u du st' H E).
Qed.

Lemma open_labels_relax (u : coord) (du : PyFloat.float) (st : list label) :
  length (open_labels (relax G u du st)) = length (open_labels st).
Proof.
  unfold open_labels, relax.
  induction st as [|l st IH]; simpl; [reflexivity|].
  rewrite relax_label_final. destruct (final l); simpl; now rewrite IH.
Qed.

Lemma open_labels_mark (pre post : list label) (u : coord)
    (du : PyFloat.float) :
  length (open_labels (pre ++ (u, Some du, false) :: post))
  = S (length (open_labels (pre ++ (u, Some du, true) :: post))).
Proof.
  unfold open_labels. rewrite !filter_app, !length_app. simpl. lia.
Qed.

(** After as many rounds as there are distances to make final, every
    distance is final. *)
Lemma search_settles (rounds : nat) (st : list label) :
  length (open_labels st) <= rounds ->
  forall l, In l (search G rounds st) -> tentative l <> None ->
    final l = true.
Proof.
  revert st. induction rounds as [|rounds IH]; intros st Hle l Hl T;
    simpl in Hl.
  - destruct (final l) eqn:F; [reflexivity|].
    assert (Hin : In l (open_labels st)).
    { apply filter_In. split; [exact Hl | now rewrite F]. }
    destruct (open_labels st); [destruct Hin | simpl in Hle; lia].
  - destruct (extract_least st) as [[[u du] st']|] eqn:E.
    + apply (IH (relax G u du st')); [|exact Hl | exact T].
      rewrite open_labels_relax.
      destruct (extract_least_split _ _ _ _ E) as (pre & post & -> & ->).
      rewrite open_labels_mark in Hle. apply le_S_n. exact Hle.
    + destruct (extract_least_none st E l Hl) as [H | H];
        [congruence | exact H].
Qed.

Lemma lengths_invariant : search_invariant G source (lengths G source).
Proof. apply search_invariant_kept, init_invariant. Qed.

Lemma lengths_settled (l : label) :
  In l (lengths G source) -> tentative l <> None -> final l = true.
Proof.
  apply search_settles. unfold open_labels, init.
  etransitivity; [apply filter_length_le|]. now rewrite length_map.
Qed.

Lemma joined_has_length (c : coord) :
  joined G source c ->
  forall l, In l (lengths G source) -> node l = c -> tentative l <> None.
Proof.
  destruct lengths_invariant as (Ha & Hb & Hc & Hd & He).
  induction 1 as [c Hin Hs | u c Hu IH Hin Hedge]; intros l Hl <-.
  - now apply Hd.
  - assert (Hnode : In u (map node (lengths G source))).
    { rewrite Ha. exact (joined_in G source u Hu). }
    apply in_map_iff in Hnode as (lu & Eu & Hlu).
    apply (He lu l Hlu Hl).
    + apply lengths_settled; [exact Hlu | now apply IH].
    + now rewrite Eu.
Qed.

(** The search finds a length exactly for the targets joined to the
    source. *)
Lemma shortest_path_length_connected (target : coord) :
  shortest_path_length G source target <> None
  <-> connected G source target.
Proof.
  destruct lengths_invariant as (Ha & Hb & Hc & Hd & He).
  unfold shortest_path_length.
  destruct (find (fun l => coord_eqb target (node l)) (lengths G source))
    as [l|] eqn:F.
  - apply find_some in F as [Hl Ht]. split.
    + intros T. exists (node l). split; [exact Ht | now apply Hc].
    + intros (c & Hc' & Hj).
      apply (joined_has_length (node l)); [|exact Hl | reflexivity].
      apply (joined_ends G source c); [exact Hj | |].
      * rewrite <- Ha. now apply in_map.
      * rewrite coord_eqb_sym in Hc'.
        exact (coord_eqb_trans c target (node l) Hc' Ht).
  - split; [congruence|].
    intros (c & Hc' & Hj). exfalso.
    pose proof (joined_in G source c Hj) as Hin.
    rewrite <- Ha in Hin. apply in_map_iff in Hin as (l & <- & Hl).
    pose proof (find_none _ _ F l Hl) as Hno. simpl in Hno. congruence.
Qed.

End SearchFacts.

Lemma unreachable_is_symmetric (G : Graph) (s t : coord) :
  Dijkstra.shortest_path_length G s t = None
  <-> Dijkstra.shortest_path_length G t s = None.
Proof.
  pose proof (shortest_path_length_connected G s t) as Hst.
  pose proof (shortest_path_length_connected G t s) as Hts.
  pose proof (connected_sym G s t) as H1.
  pose proof (connected_sym G t s) as H2.
  destruct (Dijkstra.shortest_path_length G s t),
           (Dijkstra.shortest_path_length G t s); split; intros H;
    try reflexivity; try discriminate; exfalso.
  - assert (Hc : connected G t s) by (apply H1, Hst; discriminate).
    apply Hts in Hc. congruence.
  - assert (Hc : connected G s t) by (apply H2, Hts; discriminate).
    apply Hst in Hc. congruence.
Qed.

Section LengthBounds.
Import Dijkstra.
Variable G : Graph.
Variable target : coord.

Let at_target (l : label) : bool := coord_eqb target (node l).




(** The distance of the target is at most [bound]. *)
Let bounded (bound : PyFloat.float) (st : list label) : Prop :=
  exists l d,
    find at_target st = Some l /\ tentative l = Some d
    /\ PyFloat.leb d bound = true.





Variable source : coord.





End LengthBounds.

(** ** The distance matrix of the search *)



Section NoBoundary.
Variable intersects touches : list coord -> Polygon -> bool.
Variable hypot : PyFloat.float -> PyFloat.float -> PyFloat.float.
Variable pois : list coord.

Let G : Graph := build intersects touches hypot pois [].



End NoBoundary.

Section MatrixOfTheSearch.
Variable intersects touches : list coord -> Polygon -> bool.
Variable hypot : PyFloat.float -> PyFloat.float -> PyFloat.float.
Variable pois : list coord.
Variable boundaries : list Polygon.

Let G : Graph := build intersects touches hypot pois boundaries.

(** When the waypoints are numbers the matrix is filled, whatever the
    search answers. *)
Lemma matrix_is_filled
    (shortest_path_length : Graph -> coord -> coord -> option PyFloat.float) :
  Forall (fun c => coord_eqb c c = true) pois ->
  exists dm,
    compute_distance_matrix shortest_path_length G pois = Ok dm
    /\ forall i j, i < length pois -> j < length pois ->
         dm (i, j) = distance_matrix shortest_path_length G pois (i, j).
Proof.
  intros Hnum.
  pose proof (compute_distance_matrix_failure shortest_path_length G pois)
    as Hfill.
  destruct (compute_distance_matrix shortest_path_length G pois)
    as [dm|e] eqn:E.
  - exists dm. split; [reflexivity|].
    intros i j. now apply compute_distance_matrix_entries.
  - exfalso. destruct Hfill as (_ & _ & Hex).
    apply Exists_exists in Hex as (c & Hc & Hno).
    unfold G in Hno.
    rewrite (waypoint_is_node_iff_number _ _ _ _ _ _ Hc) in Hno.
    rewrite Forall_forall in Hnum. rewrite (Hnum c Hc) in Hno.
    discriminate.
Qed.


End MatrixOfTheSearch.





(** C10, as the script has it.  The matrix of waypoints that are numbers
    is filled and has a zero diagonal.  It is symmetric in what is
    unreachable: the search finds no path from one waypoint to another
    exactly when it finds none back, and both entries are then the
    sentinel; the two searches see the same edges with the same weights.
    Two entries that are lengths are sums of those weights added in
    opposite orders, and may differ by rounding. *)
Theorem C10_unreachable_entries_are_symmetric
    (intersects touches : list coord -> Polygon -> bool)
    (hypot : PyFloat.float -> PyFloat.float -> PyFloat.float)
    (pois : list coord) (boundaries : list Polygon) :
  Forall (fun c => coord_eqb c c = true) pois ->
  exists dm,
    compute_distance_matrix Dijkstra.shortest_path_length
      (build intersects touches hypot pois boundaries) pois = Ok dm
    /\ (forall u v,
          edge_weight (build intersects touches hypot pois boundaries) u v
          = edge_weight (build intersects touches hypot pois boundaries) v u)
    /\ forall i j ci cj,
         nth_error pois i = Some ci -> nth_error pois j = Some cj ->
         dm (i, i) = PyFloat.zero
         /\ (Dijkstra.shortest_path_length
               (build intersects touches hypot pois boundaries) ci cj = None
             <-> Dijkstra.shortest_path_length
                   (build intersects touches hypot pois boundaries) cj ci
                 = None)
         /\ (i <> j ->
             Dijkstra.shortest_path_length
               (build intersects touches hypot pois boundaries) ci cj = None ->
             dm (i, j) = PyFloat.inf /\ dm (j, i) = PyFloat.inf).
Proof.
  intros Hnum.
  set (G := build intersects touches hypot pois boundaries).
  destruct (matrix_is_filled intersects touches hypot pois boundaries
              Dijkstra.shortest_path_length Hnum) as (dm & Hdm & Hentry).
  fold G in Hdm, Hentry.
  exists dm. split; [exact Hdm|].
  split; [exact (edge_weight_reversed G)|].
  intros i j ci cj Hi Hj.
  assert (Hlti : i < length pois) by (apply nth_error_Some; congruence).
  assert (Hltj : j < length pois) by (apply nth_error_Some; congruence).
  rewrite !Hentry by assumption. unfold distance_matrix.
  rewrite Nat.eqb_refl.
  split; [reflexivity|].
  split; [apply unreachable_is_symmetric|].
  intros Hij Hnone.
  pose proof (proj1 (unreachable_is_symmetric G ci cj) Hnone) as Hback.
  apply Nat.eqb_neq in Hij. rewrite Hij.
  rewrite Nat.eqb_sym in Hij. rewrite Hij.
  now rewrite Hi, Hj, Hnone, Hback.
Qed.

Lemma C10_witness :
  exists dm,
    compute_distance_matrix Dijkstra.shortest_path_length
      (build Planar.intersects Planar.touches hypot_sqrt
             [pt 0 0; pt 15 5] [square]) [pt 0 0; pt 15 5] = Ok dm
    /\ (forall u v,
          edge_weight (build Planar.intersects Planar.touches hypot_sqrt
                             [pt 0 0; pt 15 5] [square]) u v
          = edge_weight (build Planar.intersects Planar.touches hypot_sqrt
                               [pt 0 0; pt 15 5] [square]) v u)
    /\ forall i j ci cj,
         nth_error [pt 0 0; pt 15 5] i = Some ci ->
         nth_error [pt 0 0; pt 15 5] j = Some cj ->
         dm (i, i) = PyFloat.zero
         /\ (Dijkstra.shortest_path_length
               (build Planar.intersects Planar.touches hypot_sqrt
                      [pt 0 0; pt 15 5] [square]) ci cj = None
             <-> Dijkstra.shortest_path_length
                   (build Planar.intersects Planar.touches hypot_sqrt
                          [pt 0 0; pt 15 5] [square]) cj ci = None)
         /\ (i <> j ->
             Dijkstra.shortest_path_length
               (build Planar.intersects Planar.touches hypot_sqrt
                      [pt 0 0; pt 15 5] [square]) ci cj = None ->
             dm (i, j) = PyFloat.inf /\ dm (j, i) = PyFloat.inf).
Proof.
  apply (C10_unreachable_entries_are_symmetric
           Planar.intersects Planar.touches hypot_sqrt
           [pt 0 0; pt 15 5] [square]).
  repeat constructor.
Defined.

(** Four waypoints on a line, at abscissas 0, 3*2^-55, 3*2^-54 and
    1+2^-52, and no obstacle.  From the first to the last every path adds
    up to 1+2^-52; from the last to the first the path through the two
    others adds 1, 3*2^-55 and 3*2^-55, which rounds to 1 at each step. *)
Lemma C10_opposite_searches_differ :
  match compute_distance_matrix Dijkstra.shortest_path_length
          (build no_contact no_contact hypot_sqrt four_on_a_line [])
          four_on_a_line with
  | Ok dm =>
      dm (0, 3) = one_plus_ulp
      /\ dm (3, 0) = PyFloat.of_Z 1
      /\ PyFloat.eqb (dm (0, 3)) (dm (3, 0)) = false
  | Raise _ => False
  end.
Proof. vm_compute. repeat split. Qed.

(** ** Several boundaries *)

Section Boundaries.
Variable intersects touches : list coord -> Polygon -> bool.
Variable hypot : PyFloat.float -> PyFloat.float -> PyFloat.float.

Lemma is_valid_edge_app (p1 p2 : coord) (bs bs' : list Polygon) :
  is_valid_edge intersects touches p1 p2 (bs ++ bs')
  = is_valid_edge intersects touches p1 p2 bs
    && is_valid_edge intersects touches p1 p2 bs'.
Proof. rewrite !is_valid_edge_forallb. apply forallb_app. Qed.

Lemma is_valid_edge_repeat (p1 p2 : coord) (g : Polygon) (k : nat) :
  is_valid_edge intersects touches p1 p2 (repeat g (S k))
  = is_valid_edge intersects touches p1 p2 [g].
Proof.
  rewrite !is_valid_edge_forallb.
  induction k as [|k IH]; [reflexivity|].
  change (repeat g (S (S k))) with (g :: repeat g (S k)).
  change (forallb ?f (g :: ?l)) with (f g && forallb f l).
  rewrite IH. simpl. rewrite andb_true_r. apply andb_diag.
Qed.

(** An edge is admissible when no boundary passes the test of line 61, so
    boundaries add up: a segment is valid for two lists together exactly
    when it is valid for each, in whatever order they come. *)
Theorem boundaries_add_up (p1 p2 : coord) (bs bs' : list Polygon) :
  (is_valid_edge intersects touches p1 p2 bs = true
   <-> forall b, In b bs ->
         segmentEntersSolid intersects touches p1 p2 b = false)
  /\ is_valid_edge intersects touches p1 p2 (bs ++ bs')
     = is_valid_edge intersects touches p1 p2 bs
       && is_valid_edge intersects touches p1 p2 bs'
  /\ is_valid_edge intersects touches p1 p2 (bs ++ bs')
     = is_valid_edge intersects touches p1 p2 (bs' ++ bs).
Proof.
  repeat split.
  - rewrite is_valid_edge_forallb, forallb_forall.
    intros H b Hb. apply negb_true_iff. now apply H.
  - rewrite is_valid_edge_forallb, forallb_forall.
    intros H b Hb. apply negb_true_iff. now apply H.
  - apply is_valid_edge_app.
  - rewrite !is_valid_edge_app. apply andb_comm.
Qed.

Lemma add_edges_from_ext (bs bs' : list Polygon) (p1 : coord)
    (later : list coord) (G : Graph) :
  (forall p q, is_valid_edge intersects touches p q bs
               = is_valid_edge intersects touches p q bs') ->
  add_edges_from intersects touches hypot bs p1 later G
  = add_edges_from intersects touches hypot bs' p1 later G.
Proof.
  intros H. unfold add_edges_from. revert G.
  induction later as [|p2 later IH]; intros G; simpl; [reflexivity|].
  now rewrite IH, H.
Qed.

Lemma add_edges_ext (bs bs' : list Polygon) (nodes : list coord) (G : Graph) :
  (forall p q, is_valid_edge intersects touches p q bs
               = is_valid_edge intersects touches p q bs') ->
  add_edges intersects touches hypot bs nodes G
  = add_edges intersects touches hypot bs' nodes G.
Proof.
  intros H. revert G.
  induction nodes as [|p1 later IH]; intros G; simpl; [reflexivity|].
  now rewrite IH, (add_edges_from_ext bs bs' p1 later G H).
Qed.

Lemma dedup_repeated_ring (pois : list coord) (g : Polygon) (k : nat) :
  Forall (fun v => coord_eqb v v = true) (ring_vertices g) ->
  dedup (collect_nodes pois (repeat g (S k)))
  = dedup (collect_nodes pois [g]).
Proof.
  intros Hnum. unfold dedup, collect_nodes.
  cbn [repeat flat_map]. rewrite app_nil_r, app_assoc, fold_left_app.
  apply fold_set_add_known.
  intros p Hp. apply in_flat_map in Hp as (g' & Hg' & Hp).
  apply repeat_spec in Hg'. subst g'.
  rewrite Forall_forall in Hnum.
  apply fold_set_add_knows; [now apply Hnum|].
  apply in_or_app. now right.
Qed.

End Boundaries.

(** The obstacle list the parsing leaves is one polygon repeated; when the
    coordinates of its rings are numbers, the repetition changes nothing:
    the graph built from the polygon repeated is the graph built from the
    polygon once. *)
Theorem repeated_obstacle_counts_once
    (intersects touches : list coord -> Polygon -> bool)
    (hypot : PyFloat.float -> PyFloat.float -> PyFloat.float)
    (pois : list coord) (g : Polygon) (k : nat) :
  Forall (fun v => coord_eqb v v = true) (ring_vertices g) ->
  build intersects touches hypot pois (repeat g (S k))
  = build intersects touches hypot pois [g].
Proof.
  intros Hnum. unfold build.
  rewrite (dedup_repeated_ring pois g k Hnum).
  apply add_edges_ext. intros p q. apply is_valid_edge_repeat.
Qed.

Lemma repeated_obstacle_counts_once_witness :
  build vertex_contact no_contact hypot_sqrt [pt 0 0; pt 30 0]
        (repeat square 3)
  = build vertex_contact no_contact hypot_sqrt [pt 0 0; pt 30 0] [square].
Proof.
  apply (repeated_obstacle_counts_once vertex_contact no_contact hypot_sqrt
           [pt 0 0; pt 30 0] square 2).
  repeat constructor.
Defined.

(** ** The inner loop and what the search reads *)

Lemma evaluate_app_kept (dm : DistanceMatrix) (l1 l2 : list (nat * nat))
    (total : PyFloat.float) :
  Forall (fun ab => PyFloat.eqb (dm ab) PyFloat.inf = false) l1 ->
  evaluate dm (l1 ++ l2) total
  = evaluate dm l2 (fold_left (fun t ab => PyFloat.add t (dm ab)) l1 total).
Proof.
  revert total. induction l1 as [|[a b] l1 IH]; intros total H; simpl.
  - reflexivity.
  - inversion H as [|? ? Hab Hrest]; subst. rewrite Hab. now apply IH.
Qed.

(** The inner loop reports a valid tour exactly when no leg is the sentinel,
    and then its total is the sum of the legs; at the first sentinel it
    breaks with the sum of the legs before it, and the legs after it are
    not read. *)
Theorem inner_loop_breaks_at_first_sentinel (dm : DistanceMatrix) :
  (forall order,
     fst (evaluate dm (legs order) PyFloat.zero) = true
     <-> no_unreachable_leg dm order)
  /\ (forall order, no_unreachable_leg dm order ->
        evaluate dm (legs order) PyFloat.zero = (true, tour_cost dm order))
  /\ (forall before leg after total,
        Forall (fun ab => PyFloat.eqb (dm ab) PyFloat.inf = false) before ->
        PyFloat.eqb (dm leg) PyFloat.inf = true ->
        evaluate dm (before ++ leg :: after) total
        = (false,
           fold_left (fun t ab => PyFloat.add t (dm ab)) before total)).
Proof.
  repeat split.
  - apply evaluate_dropped.
  - intros H. now rewrite (evaluate_kept dm order H).
  - apply evaluate_kept.
  - intros before [a b] after total Hb Hleg.
    rewrite (evaluate_app_kept dm before _ total Hb). simpl.
    now rewrite Hleg.
Qed.

Lemma inner_loop_breaks_at_first_sentinel_witness :
  evaluate two_islands_matrix ([] ++ (0, 1) :: [(1, 0)]) PyFloat.zero
  = (false, PyFloat.zero).
Proof.
  apply (proj2 (proj2 (inner_loop_breaks_at_first_sentinel
                         two_islands_matrix)) [] (0, 1) [(1, 0)] PyFloat.zero).
  - constructor.
  - vm_compute. reflexivity.
Defined.

Lemma legs_second (x : nat) (rest : list nat) (a b : nat) :
  In (a, b) (legs (x :: rest)) -> In b rest.
Proof.
  revert x. induction rest as [|y rest IH]; intros x H.
  - destruct H.
  - change (legs (x :: y :: rest)) with ((x, y) :: legs (y :: rest)) in H.
    destruct H as [H | H].
    + injection H as _ ->. now left.
    + right. exact (IH y H).
Qed.

Lemma evaluate_ext (dm dm' : DistanceMatrix) (ls : list (nat * nat))
    (total : PyFloat.float) :
  (forall ab, In ab ls -> dm ab = dm' ab) ->
  evaluate dm ls total = evaluate dm' ls total.
Proof.
  revert total. induction ls as [|[a b] rest IH]; intros total H; simpl.
  - reflexivity.
  - rewrite <- (H (a, b) (or_introl eq_refl)).
    destruct (PyFloat.eqb (dm (a, b)) PyFloat.inf); [reflexivity|].
    apply IH. intros ab Hab. apply H. now right.
Qed.

Lemma fold_left_ext_in {A B : Type} (f g : A -> B -> A) (l : list B) (a : A) :
  (forall x y, In y l -> f x y = g x y) ->
  fold_left f l a = fold_left g l a.
Proof.
  revert a. induction l as [|y l IH]; intros a H; simpl.
  - reflexivity.
  - rewrite (H a y (or_introl eq_refl)). apply IH.
    intros x z Hz. apply H. now right.
Qed.

(** The search reads the distance matrix only at legs that leave one
    waypoint for another one that is not the origin: it never reads the
    diagonal, nor the distances back to the origin, so two matrices that
    agree on those legs give the same order and the same cost. *)
Theorem search_reads_only_legs_away_from_origin
    (dm dm' : DistanceMatrix) (n : nat) :
  (forall a b, a < n -> 1 <= b < n -> a <> b -> dm (a, b) = dm' (a, b)) ->
  tsp dm n = tsp dm' n.
Proof.
  intros Hagree. unfold tsp. apply fold_left_ext_in.
  intros st perm Hperm. unfold tsp_step.
  apply permutations_spec in Hperm.
  rewrite (evaluate_ext dm dm' (legs (0 :: perm)) PyFloat.zero); [reflexivity|].
  intros [a b] Hab.
  assert (Hb : In b perm) by exact (legs_second 0 perm a b Hab).
  apply (Permutation_in _ Hperm) in Hb. unfold range in Hb.
  apply in_seq in Hb.
  assert (Hn : 1 <= n) by lia.
  pose proof (origin_then_range n perm Hn Hperm) as Hall.
  destruct (legs_in _ _ _ Hab) as [Ha _].
  apply (Permutation_in _ Hall) in Ha. apply in_seq in Ha.
  apply Hagree; try lia.
  apply (legs_distinct (0 :: perm)); [|exact Hab].
  apply (Permutation_NoDup (Permutation_sym Hall)), seq_NoDup.
Qed.

Lemma search_reads_only_legs_away_from_origin_witness :
  tsp scenario_A_matrix 3
  = tsp (fun ab => if Nat.eqb (snd ab) 0 then S754_nan
                   else scenario_A_matrix ab) 3.
Proof.
  apply search_reads_only_legs_away_from_origin.
  intros a b Ha Hb Hab. destruct b as [|b]; [lia | reflexivity].
Defined.

Lemma reconstruct_head
    (shortest_path : Graph -> coord -> coord -> option (list coord))
    (G : Graph) (poi_coords : list coord) (ls : list (nat * nat))
    (full_path path_so_far : list coord) :
  reconstruct shortest_path G poi_coords ls path_so_far = Ok full_path ->
  path_so_far <> [] ->
  hd_error full_path = hd_error path_so_far.
Proof.
  revert path_so_far.
  induction ls as [|[a b] rest IH]; intros path_so_far H Hne; simpl in H.
  - now injection H as <-.
  - destruct (nth_error poi_coords a) as [ca|]; [|discriminate].
    destruct (nth_error poi_coords b) as [cb|]; [|discriminate].
    destruct (shortest_path G ca cb) as [path|]; [|discriminate].
    rewrite (IH _ H).
    + destruct path_so_far; [congruence | reflexivity].
    + destruct path_so_far; [congruence | discriminate].
Qed.

Lemma cleanup_head (full_path : list coord) :
  hd_error (remove_consecutive_duplicates full_path) = hd_error full_path.
Proof.
  unfold remove_consecutive_duplicates.
  destruct full_path as [|p rest]; [reflexivity|]. simpl.
  rewrite fold_clean_step_head; [reflexivity | discriminate].
Qed.

(** With two waypoints or more, and leg paths that start at their source,
    as those of networkx do, the printed route starts at the origin, the
    first waypoint. *)
Theorem route_starts_at_the_origin
    (shortest_path : Graph -> coord -> coord -> option (list coord))
    (G : Graph) (poi_coords : list coord) (dm : DistanceMatrix)
    (cleaned_path : list coord) :
  (forall u v path, shortest_path G u v = Some path ->
     hd_error path = Some u) ->
  2 <= length poi_coords ->
  route shortest_path G poi_coords dm = Ok (OptimalPath cleaned_path) ->
  hd_error cleaned_path = hd_error poi_coords.
Proof.
  intros Hstart Hn Hroute. unfold route in Hroute.
  destruct (fst (tsp dm (length poi_coords))) as [best_order|] eqn:Hbest;
    [|discriminate].
  destruct (reconstruct shortest_path G poi_coords (legs best_order) [])
    as [full_path|e] eqn:Hrec; simpl in Hroute; [|discriminate].
  injection Hroute as <-.
  destruct (tsp_invariant_holds dm (length poi_coords)) as (_ & _ & Hinv).
  rewrite Hbest in Hinv.
  destruct Hinv as (earlier & perm & later & Hseen & -> & _).
  assert (Hp : Permutation perm (range 1 (length poi_coords)))
    by (apply permutations_spec; rewrite Hseen; apply in_elt).
  destruct perm as [|b perm'].
  { apply Permutation_length in Hp. unfold range in Hp.
    rewrite length_seq in Hp. simpl in Hp. lia. }
  change (legs (0 :: b :: perm')) with ((0, b) :: legs (b :: perm')) in Hrec.
  simpl in Hrec.
  destruct poi_coords as [|c0 others]; [discriminate Hrec|].
  simpl in Hrec.
  destruct (nth_error (c0 :: others) b) as [cb|]; [|discriminate].
  destruct (shortest_path G c0 cb) as [path|] eqn:Esp; [|discriminate].
  pose proof (Hstart _ _ _ Esp) as Hhd.
  destruct path as [|x path]; [discriminate Hhd|].
  injection Hhd as ->.
  apply reconstruct_head in Hrec; [|discriminate].
  rewrite cleanup_head, Hrec. reflexivity.
Qed.

Lemma direct_path_starts (G : Graph) (u v : coord) (path : list coord) :
  direct_path G u v = Some path -> hd_error path = Some u.
Proof.
  unfold direct_path. destruct (coord_eqb u v).
  - intros H. now injection H as <-.
  - destruct (edge_weight G u v); [|discriminate].
    intros H. now injection H as <-.
Qed.

Lemma route_starts_at_the_origin_witness :
  hd_error [pt 0 0; pt 10 0; pt 10 10] = Some (pt 0 0).
Proof.
  apply (route_starts_at_the_origin direct_path scenario_A_graph
           [pt 0 0; pt 10 0; pt 10 10] scenario_A_matrix).
  - apply direct_path_starts.
  - simpl. lia.
  - vm_compute. reflexivity.
Defined.
